(** * Moderation decision engine of blotato: shallow embedding and properties

    The development follows [src/lib/openai.ts] (the moderation evaluator and
    its in-memory cache) and [src/lib/constants.ts] (the [MODERATION] table).

    Modelling conventions.
    - A JavaScript [number] that carries a score is an IEEE binary64 value: it
      is a kernel float, and [>], [>=] are [PrimFloat.ltb], [PrimFloat.leb]
      (both false as soon as one side is NaN, as in JavaScript).
    - [Date.now()] yields integral milliseconds: timestamps are in [Z].
    - The cache is a [Map<string, ...>]: a [gmap string _].
    - Plain objects iterated with [Object.entries] are ordered property lists;
      a property whose value is [undefined] carries [None].
    - [try]/[catch] is a sum type: [inl] is a raised exception. *)

From Stdlib Require Import ZArith List Ascii String Floats Lia.
From stdpp Require Import gmap strings list fin_maps.

Set Warnings "-inexact-float".
Local Open Scope string_scope.
Local Open Scope list_scope.
Local Open Scope Z_scope.

(** ** Constants ([src/lib/constants.ts]) *)

Module MODERATION.
Definition MODEL : string := "omni-moderation-latest".
Definition CONFIDENCE_THRESHOLD : float := 0.1%float.
Definition HIGH_SENSITIVITY_THRESHOLD : float := 0.05%float.
Definition CACHE_TTL_HOURS : Z := 1.
Definition CATEGORIES : list string :=
  [ "hate"; "hate/threatening"; "harassment"; "harassment/threatening";
    "self-harm"; "self-harm/intent"; "self-harm/instructions";
    "sexual"; "sexual/minors"; "violence"; "violence/graphic" ].
Definition HIGH_SENSITIVITY_CATEGORIES : list string :=
  [ "hate"; "hate/threatening"; "harassment"; "harassment/threatening" ].
End MODERATION.

(** ** JavaScript primitives used by the module *)

(** [ToInt32]: wrap an integer to the signed 32-bit range. *)
Definition to_int32 (z : Z) : Z := (z + 2 ^ 31) mod 2 ^ 32 - 2 ^ 31.

(** [a << n] and [a & b] on numbers: both operands go through [ToInt32] and
    the result is a signed 32-bit integer. *)
Definition js_shl (a : Z) (n : Z) : Z := to_int32 (Z.shiftl (to_int32 a) n).
Definition js_and (a b : Z) : Z := to_int32 (Z.land (to_int32 a) (to_int32 b)).

(** A JavaScript string is a sequence of UTF-16 code units; [charCodeAt]
    reads one of them. *)
Definition code_unit := N.
Definition js_text := list code_unit.

Definition text_of_string (s : string) : js_text :=
  map N_of_ascii (list_ascii_of_string s).

(** [Number.prototype.toString(36)] on an integer: digits [0-9a-z], most
    significant first, a leading minus sign for negatives. *)
Definition digit36 (d : Z) : ascii :=
  nth (Z.to_nat d)
      (list_ascii_of_string "0123456789abcdefghijklmnopqrstuvwxyz") "0"%char.

Fixpoint digits36 (fuel : nat) (n : Z) (acc : string) : string :=
  match fuel with
  | O => acc
  | S fuel' =>
      if n <? 36 then String (digit36 n) acc
      else digits36 fuel' (n / 36) (String (digit36 (n mod 36)) acc)
  end.

Definition toString36 (n : Z) : string :=
  if n <? 0
  then "-" +:+ digits36 (S (Z.to_nat (Z.log2 (- n)))) (- n) ""
  else digits36 (S (Z.to_nat (Z.log2 n))) n "".

(** [x || y] where [x] may be [undefined]: truthiness of an optional boolean. *)
Definition truthy (b : option bool) : bool :=
  match b with Some true => true | _ => false end.

(** [score > m] and [score >= t] where [score] may be [undefined]
    ([undefined] converts to NaN, and every comparison with NaN is false). *)
Definition js_gt (score : option float) (m : float) : bool :=
  match score with Some s => PrimFloat.ltb m s | None => false end.
Definition js_ge (score : option float) (t : float) : bool :=
  match score with Some s => PrimFloat.leb t s | None => false end.

(** [Array.prototype.includes] on an array of strings. *)
Definition includes (l : list string) (x : string) : bool :=
  existsb (String.eqb x) l.

(** Property read [o[k]] on an ordered property list without duplicate keys;
    a missing property and a property holding [undefined] both read as
    [None]. *)
Fixpoint prop_get {A} (o : list (string * option A)) (k : string) : option A :=
  match o with
  | [] => None
  | (k', v) :: o' => if String.eqb k k' then v else prop_get o' k
  end.

(** ** Cache key ([getModerationCacheKey]) *)

Definition hash_step (hash : Z) (char : code_unit) : Z :=
  let hash := (js_shl hash 5 - hash) + Z.of_N char in
  js_and hash hash.

Definition content_hash (content : js_text) : Z :=
  fold_left hash_step content 0.

Definition getModerationCacheKey (content : js_text) : string :=
  "moderation_" +:+ toString36 (content_hash content).

(** ** Data model ([src/lib/types.ts]) *)

(** One evaluation unit as [analyzeModeration] reads it. [categories] is the
    object walked by [Object.entries], in property order; [category_scores]
    is read by key. *)
Record ModerationCategory := {
  flagged : option bool;
  categories : list (string * option bool);
  category_scores : list (string * option float)
}.

Record ModerationResult := {
  id : string;
  model : string;
  results : list ModerationCategory
}.

Record Decision := {
  isAllowed : bool;
  moderationResult : ModerationResult;
  flaggedCategories : list string;
  confidenceScore : float
}.

(** ** The evaluator ([analyzeModeration]) *)

(** The three locals of [analyzeModeration] mutated by its loops. *)
Record Locals := {
  loc_flagged : list string;
  loc_max : float;
  loc_violation : bool
}.

Definition threshold_of (category : string) : float :=
  let isHighSensitivityCategory :=
    includes MODERATION.HIGH_SENSITIVITY_CATEGORIES category in
  if isHighSensitivityCategory
  then MODERATION.HIGH_SENSITIVITY_THRESHOLD
  else MODERATION.CONFIDENCE_THRESHOLD.

(** [if (!flaggedCategories.includes(category)) flaggedCategories.push(category)] *)
Definition push_unique (fl : list string) (category : string) : list string :=
  if includes fl category then fl else fl ++ [category].

(** Body of the inner loop, for one [[category, flagged]] entry. *)
Definition category_step (scores : list (string * option float))
    (st : Locals) (entry : string * option bool) : Locals :=
  let '(category, flag) := entry in
  let score := prop_get scores category in
  let maxConfidence :=
    if js_gt score (loc_max st) then default (loc_max st) score else loc_max st in
  let threshold := threshold_of category in
  if truthy flag || js_ge score threshold
  then {| loc_flagged := push_unique (loc_flagged st) category;
          loc_max := maxConfidence;
          loc_violation := true |}
  else {| loc_flagged := loc_flagged st;
          loc_max := maxConfidence;
          loc_violation := loc_violation st |}.

(** Body of the outer loop, for one result. *)
Definition result_step (st : Locals) (result : ModerationCategory) : Locals :=
  let st :=
    if truthy (flagged result)
    then {| loc_flagged := loc_flagged st; loc_max := loc_max st;
            loc_violation := true |}
    else st in
  fold_left (category_step (category_scores result)) (categories result) st.

Definition analyze_loop (rs : list ModerationCategory) : Locals :=
  fold_left result_step rs
    {| loc_flagged := []; loc_max := 0%float; loc_violation := false |}.

Definition analyzeModeration (moderationResult : ModerationResult) : Decision :=
  let st := analyze_loop (results moderationResult) in
  {| isAllowed := negb (loc_violation st);
     moderationResult := moderationResult;
     flaggedCategories := loc_flagged st;
     confidenceScore := loc_max st |}.

(** A unit as the TypeScript interface [ModerationCategory] describes it,
    with every flag [false] and every score [0] unless stated otherwise. *)
Definition unit_of (top : bool) (flags : list string)
    (scores : list (string * float)) : ModerationCategory :=
  {| flagged := Some top;
     categories :=
       map (fun c => (c, Some (includes flags c))) MODERATION.CATEGORIES;
     category_scores :=
       map (fun c => (c, Some (default 0%float (prop_get
              (map (fun p => (p.1, Some p.2)) scores) c))))
           MODERATION.CATEGORIES |}.

Definition result_of (us : list ModerationCategory) : ModerationResult :=
  {| id := "modr-test"; model := MODERATION.MODEL; results := us |}.

(** ** Reading a decision off a response, in the words of the policy *)

(** The flag and the score a unit carries for a category. *)
Definition category_flag (u : ModerationCategory) (c : string) : bool :=
  truthy (prop_get (categories u) c).
Definition category_score (u : ModerationCategory) (c : string) : option float :=
  prop_get (category_scores u) c.

(** A category is a violation for a unit when its flag is set or its score
    reaches the threshold of its class. *)
Definition violates (u : ModerationCategory) (c : string) : bool :=
  category_flag u c || js_ge (category_score u c) (threshold_of c).

(** The violating categories of a response, unit after unit, each unit in
    the order of its categories. *)
Definition violations (r : ModerationResult) : list string :=
  flat_map (fun u => List.filter (violates u) (map fst (categories u)))
           (results r).

(** Keep the first occurrence of every element. *)
Fixpoint first_seen (l : list string) : list string :=
  match l with
  | [] => []
  | x :: l' => x :: List.filter (fun y => negb (String.eqb y x)) (first_seen l')
  end.

(** Every score a response carries, for the categories of its units. *)
Definition observed_scores (r : ModerationResult) : list (option float) :=
  flat_map (fun u => map (fun e => category_score u e.1) (categories u))
           (results r).

Definition nodupb (l : list string) : bool :=
  bool_decide (NoDup l).

Definition same_keys (ks : list string) : bool :=
  nodupb ks
  && forallb (includes MODERATION.CATEGORIES) ks
  && forallb (includes ks) MODERATION.CATEGORIES.

Definition is_some {A} (o : option A) : bool :=
  match o with Some _ => true | None => false end.

(** A unit is well formed when it carries a boolean [flagged], a boolean flag
    for each of the eleven categories and no other, and a number as the score
    of each of them. *)
Definition well_formed_unit (u : ModerationCategory) : bool :=
  is_some (flagged u)
  && same_keys (map fst (categories u))
  && forallb (fun e => is_some e.2) (categories u)
  && forallb (fun c => is_some (category_score u c)) MODERATION.CATEGORIES.

Definition well_formed (r : ModerationResult) : bool :=
  forallb well_formed_unit (results r).

(** Scores are probabilities. *)
Definition probability (s : float) : bool :=
  PrimFloat.leb 0%float s && PrimFloat.leb s 1%float.

Definition scores_are_probabilities (r : ModerationResult) : bool :=
  forallb (fun u =>
    forallb (fun c => match category_score u c with
                      | Some s => probability s
                      | None => false
                      end) MODERATION.CATEGORIES) (results r).

(** ** The cache ([moderationCache] and its accessors) *)

Record CacheEntry := {
  result : ModerationResult;
  timestamp : Z
}.

(** The state the module closes over: the cache, and the number of requests
    issued so far to the remote classifier. *)
Record World := {
  moderationCache : gmap string CacheEntry;
  remoteCalls : nat
}.

Definition set_cache (w : World) (c : gmap string CacheEntry) : World :=
  {| moderationCache := c; remoteCalls := remoteCalls w |}.

(** [isCacheValid]; [now] is the reading of [Date.now()]. *)
Definition isCacheValid (now : Z) (timestamp : Z) : bool :=
  let cacheAgeMs := now - timestamp in
  let maxAgeMs := MODERATION.CACHE_TTL_HOURS * 60 * 60 * 1000 in
  cacheAgeMs <? maxAgeMs.

Definition getCachedModeration (now : Z) (content : js_text) (w : World)
    : option ModerationResult * World :=
  let cacheKey := getModerationCacheKey content in
  let cached := moderationCache w !! cacheKey in
  match cached with
  | Some entry =>
      if isCacheValid now (timestamp entry)
      then (Some (result entry), w)
      else (None, set_cache w (delete cacheKey (moderationCache w)))
  | None => (None, w)
  end.

Definition cacheModeration (now : Z) (content : js_text)
    (result : ModerationResult) (w : World) : World :=
  let cacheKey := getModerationCacheKey content in
  set_cache w
    (<[cacheKey := {| result := result; timestamp := now |}]> (moderationCache w)).

(** ** The remote classifier and its raw answer *)

Inductive js_error :=
  | TypeError
  | RemoteError (reason : string).

(** An element of [response.results] before it is trusted: [null] or
    [undefined], or an object whose [flagged], [categories] and
    [category_scores] properties may each be missing. *)
Inductive RawUnit :=
  | RawNullish
  | RawObject (raw_flagged : option bool)
              (raw_categories : option (list (string * option bool)))
              (raw_category_scores : option (list (string * option float))).

(** [raw_results] is [None] when [response.results] is not an array. *)
Record RawResponse := {
  raw_id : string;
  raw_model : string;
  raw_results : option (list RawUnit)
}.

(** What awaiting [openai.moderations.create] gives: the promise rejects
    (network error, time-out, HTTP error) or fulfils with a response. *)
Inductive Outcome :=
  | Rejected (reason : string)
  | Fulfilled (response : RawResponse).

(** The callback of [response.results.map]. Reading a property of [null] or
    [undefined] raises a [TypeError]. *)
Definition map_unit (r : RawUnit) : js_error + ModerationCategory :=
  match r with
  | RawNullish => inl TypeError
  | RawObject fl None _ => inl TypeError
  | RawObject fl (Some _) None => inl TypeError
  | RawObject fl (Some cats) (Some scores) =>
      inr {| flagged := fl;
             categories :=
               [ ("hate", prop_get cats "hate");
                 ("hate/threatening", prop_get cats "hate/threatening");
                 ("harassment", prop_get cats "harassment");
                 ("harassment/threatening", prop_get cats "harassment/threatening");
                 ("self-harm", prop_get cats "self-harm");
                 ("self-harm/intent", prop_get cats "self-harm/intent");
                 ("self-harm/instructions", prop_get cats "self-harm/instructions");
                 ("sexual", prop_get cats "sexual");
                 ("sexual/minors", prop_get cats "sexual/minors");
                 ("violence", prop_get cats "violence");
                 ("violence/graphic", prop_get cats "violence/graphic") ];
             category_scores :=
               [ ("hate", prop_get scores "hate");
                 ("hate/threatening", prop_get scores "hate/threatening");
                 ("harassment", prop_get scores "harassment");
                 ("harassment/threatening", prop_get scores "harassment/threatening");
                 ("self-harm", prop_get scores "self-harm");
                 ("self-harm/intent", prop_get scores "self-harm/intent");
                 ("self-harm/instructions", prop_get scores "self-harm/instructions");
                 ("sexual", prop_get scores "sexual");
                 ("sexual/minors", prop_get scores "sexual/minors");
                 ("violence", prop_get scores "violence");
                 ("violence/graphic", prop_get scores "violence/graphic") ] |}
  end.

(** [Array.prototype.map] with a callback that may raise: the first
    exception aborts the traversal. *)
Fixpoint map_results (rs : list RawUnit) : js_error + list ModerationCategory :=
  match rs with
  | [] => inr []
  | r :: rs' =>
      match map_unit r with
      | inl e => inl e
      | inr u =>
          match map_results rs' with
          | inl e => inl e
          | inr us => inr (u :: us)
          end
      end
  end.

(** ** [moderateContent] *)

(** The [try] block. [now_lookup] and [now_store] are the readings of
    [Date.now()] before and after the request; [remote] is what the
    classifier answers if it is asked. *)
Definition moderateContent_try (now_lookup now_store : Z) (content : js_text)
    (remote : Outcome) (w : World) : (js_error + Decision) * World :=
  let '(cached, w) := getCachedModeration now_lookup content w in
  match cached with
  | Some cached => (inr (analyzeModeration cached), w)
  | None =>
      let w := {| moderationCache := moderationCache w;
                  remoteCalls := S (remoteCalls w) |} in
      match remote with
      | Rejected reason => (inl (RemoteError reason), w)
      | Fulfilled response =>
          match raw_results response with
          | None => (inl TypeError, w)
          | Some rs =>
              match map_results rs with
              | inl e => (inl e, w)
              | inr us =>
                  let moderationResult :=
                    {| id := raw_id response; model := raw_model response;
                       results := us |} in
                  let w := cacheModeration now_store content moderationResult w in
                  let analysis := analyzeModeration moderationResult in
                  (inr analysis, w)
              end
          end
      end
  end.

(** The conservative result of the [catch] block. *)
Definition ERROR_DECISION : Decision :=
  {| isAllowed := false;
     moderationResult :=
       {| id := "error"; model := MODERATION.MODEL; results := [] |};
     flaggedCategories := ["error"];
     confidenceScore := 1.0%float |}.

Definition moderateContent (now_lookup now_store : Z) (content : js_text)
    (remote : Outcome) (w : World) : Decision * World :=
  match moderateContent_try now_lookup now_store content remote w with
  | (inr analysis, w') => (analysis, w')
  | (inl error, w') => (ERROR_DECISION, w')
  end.

(** ** User feedback ([getCategoryDisplayName], [formatModerationFeedback]) *)

(** The own properties of the object literal [displayNames]. *)
Definition displayNames : list (string * string) :=
  [ ("hate", "Hate Speech");
    ("hate/threatening", "Threatening Hate Speech");
    ("harassment", "Harassment");
    ("harassment/threatening", "Threatening Harassment");
    ("self-harm", "Self-Harm");
    ("self-harm/intent", "Self-Harm Intent");
    ("self-harm/instructions", "Self-Harm Instructions");
    ("sexual", "Sexual Content");
    ("sexual/minors", "Sexual Content Involving Minors");
    ("violence", "Violence");
    ("violence/graphic", "Graphic Violence") ].

(** An object literal inherits from [Object.prototype]: a read [o[k]] that
    finds no own property [k] goes on to the prototype. These are its
    members, each with the text [String(...)] gives for it (the built-in
    functions print as native code, [__proto__] reads as the prototype
    object itself). *)
Definition object_prototype : list (string * string) :=
  [ ("constructor", "function Object() { [native code] }");
    ("__defineGetter__", "function __defineGetter__() { [native code] }");
    ("__defineSetter__", "function __defineSetter__() { [native code] }");
    ("hasOwnProperty", "function hasOwnProperty() { [native code] }");
    ("__lookupGetter__", "function __lookupGetter__() { [native code] }");
    ("__lookupSetter__", "function __lookupSetter__() { [native code] }");
    ("isPrototypeOf", "function isPrototypeOf() { [native code] }");
    ("propertyIsEnumerable", "function propertyIsEnumerable() { [native code] }");
    ("toString", "function toString() { [native code] }");
    ("valueOf", "function valueOf() { [native code] }");
    ("__proto__", "[object Object]");
    ("toLocaleString", "function toLocaleString() { [native code] }") ].

Fixpoint assoc (o : list (string * string)) (k : string) : option string :=
  match o with
  | [] => None
  | (k', v) :: o' => if String.eqb k k' then Some v else assoc o' k
  end.

(** What [getCategoryDisplayName] hands back: a string, or a built-in it
    found on the prototype (which is truthy). *)
Inductive js_value :=
  | JsString (s : string)
  | JsBuiltin (text : string).

(** [String(v)], as [Array.prototype.join] applies it to every element. *)
Definition js_to_string (v : js_value) : string :=
  match v with JsString s => s | JsBuiltin text => text end.

(** [displayNames[category] || category] *)
Definition getCategoryDisplayName (category : string) : js_value :=
  match assoc displayNames category with
  | Some name => if String.eqb name "" then JsString category else JsString name
  | None =>
      match assoc object_prototype category with
      | Some text => JsBuiltin text
      | None => JsString category
      end
  end.

Definition formatModerationFeedback (flaggedCategories : list string)
    (isAllowed : bool) : string :=
  if isAllowed then "Content passed moderation checks."
  else if (length flaggedCategories =? 0)%nat
  then "Content flagged by moderation system."
  else
    let categoryNames :=
      String.concat ", "
        (map js_to_string (map getCategoryDisplayName flaggedCategories)) in
    "Content flagged for: " +:+ categoryNames +:+ ". Please revise your post.".

(** The feedback in the words of the specification: every category is
    replaced by its display name when it has one and kept verbatim
    otherwise. *)
Definition display_name_or_verbatim (category : string) : string :=
  match assoc displayNames category with
  | Some name => name
  | None => category
  end.

Definition feedback_of (cats : list string) (allowed : bool) : string :=
  if allowed then "Content passed moderation checks."
  else match cats with
       | [] => "Content flagged by moderation system."
       | _ => "Content flagged for: "
                +:+ String.concat ", " (map display_name_or_verbatim cats)
                +:+ ". Please revise your post."
       end.

(** ** Auxiliary notions for the statements *)

(** The test of the inner loop on one entry. *)
Definition entry_violates (scores : list (string * option float))
    (e : string * option bool) : bool :=
  truthy e.2 || js_ge (prop_get scores e.1) (threshold_of e.1).

Definition unit_violations (u : ModerationCategory) : list string :=
  map fst (List.filter (entry_violates (category_scores u)) (categories u)).

(** The update of [maxConfidence] for one score. *)
Definition max_step (m : float) (score : option float) : float :=
  if js_gt score m then default m score else m.

(** The signed 32-bit range. *)
Definition int32 (z : Z) : Prop := - 2 ^ 31 <= z < 2 ^ 31.

(** Time to live of a cache entry, in milliseconds: one hour. *)
Definition TTL_MS : Z := 3600000.

(** Classification fails outright when the request is rejected (network
    error, time-out) or when an exception is raised while the response is
    processed. *)
Definition classification_fails (remote : Outcome) : bool :=
  match remote with
  | Rejected _ => true
  | Fulfilled response =>
      match raw_results response with
      | None => true
      | Some rs => match map_results rs with inl _ => true | inr _ => false end
      end
  end.

(** ** Shapes of raw responses *)

(** The minimal shape: an array of results, each with a [flagged] field and a
    flag and a score for each of the eleven categories. *)
Definition raw_unit_well_formed (u : RawUnit) : bool :=
  match u with
  | RawObject (Some _) (Some cats) (Some scores) =>
      forallb (fun c => is_some (prop_get cats c)) MODERATION.CATEGORIES
      && forallb (fun c => is_some (prop_get scores c)) MODERATION.CATEGORIES
  | _ => false
  end.

Definition raw_well_formed (response : RawResponse) : bool :=
  match raw_results response with
  | Some rs => forallb raw_unit_well_formed rs
  | None => false
  end.

(** The malformations that stop the mapping: no array of results, or a unit
    that is [null] or has no [categories] or no [category_scores] object. *)
Definition unit_unreadable (u : RawUnit) : bool :=
  match u with
  | RawObject _ (Some _) (Some _) => false
  | _ => true
  end.

Definition unreadable (response : RawResponse) : bool :=
  match raw_results response with
  | Some rs => existsb unit_unreadable rs
  | None => true
  end.

(** What the evaluation of a readable response amounts to, read off the raw
    units: the categories of a unit whose raw flag is [true] or whose raw
    score reaches the threshold, in the fixed order, and the raw scores of
    the eleven categories. A flag or a score that is missing is [None]. *)
Definition raw_unit_violations (r : RawUnit) : list string :=
  match r with
  | RawObject _ (Some cats) (Some scores) =>
      List.filter
        (fun c => truthy (prop_get cats c)
                  || js_ge (prop_get scores c) (threshold_of c))
        MODERATION.CATEGORIES
  | _ => []
  end.

Definition raw_unit_scores (r : RawUnit) : list (option float) :=
  match r with
  | RawObject _ (Some _) (Some scores) =>
      map (prop_get scores) MODERATION.CATEGORIES
  | _ => []
  end.

Definition raw_unit_flagged (r : RawUnit) : bool :=
  match r with
  | RawObject fl _ _ => truthy fl
  | RawNullish => false
  end.

(** A unit that carries only two of the eleven categories. *)
Definition partial_response : RawResponse :=
  {| raw_id := "modr-2"; raw_model := "omni-moderation-latest";
     raw_results := Some
       [ RawObject (Some false)
           (Some [("harassment", Some false); ("sexual", Some false)])
           (Some [("harassment", Some 0.01%float); ("sexual", Some 0.02%float)]) ] |}.

(** A unit whose flags are all missing and which carries a score only for
    "harassment": that score alone decides. *)
Definition flagless_response : RawResponse :=
  {| raw_id := "modr-4"; raw_model := "omni-moderation-latest";
     raw_results := Some
       [ RawObject None (Some [])
           (Some [("harassment", Some 0.2%float)]) ] |}.

(** ** Sample states and responses *)

(** A fresh process: nothing cached, nothing requested. *)
Definition EMPTY_WORLD : World := {| moderationCache := ∅; remoteCalls := 0 |}.

(** A well-shaped answer for harmless text. *)
Definition clean_response : RawResponse :=
  {| raw_id := "modr-1"; raw_model := "omni-moderation-latest";
     raw_results := Some
       [ RawObject (Some false)
           (Some (map (fun c => (c, Some false)) MODERATION.CATEGORIES))
           (Some (map (fun c => (c, Some 0.001%float)) MODERATION.CATEGORIES)) ] |}.

(** ** The periodic sweep ([cleanupModerationCache]) *)

(** The loop runs over a snapshot of the entries
    ([Array.from(moderationCache.entries())]) and deletes from the live map. *)
Definition cleanupModerationCache (now : Z) (w : World) : World :=
  let maxAgeMs := MODERATION.CACHE_TTL_HOURS * 60 * 60 * 1000 in
  set_cache w
    (fold_left
       (fun cache entry =>
          let '(key, value) := entry in
          if now - timestamp value >=? maxAgeMs
          then delete key cache
          else cache)
       (map_to_list (moderationCache w)) (moderationCache w)).

(** ** Post validation helpers ([src/lib/validations.ts]) *)

Module Validations.
Definition MAX_POST_LENGTH : Z := 280.
Definition MIN_POST_LENGTH : Z := 1.
Definition MODERATION_CONFIDENCE_THRESHOLD : float := 0.1%float.

(** [content.length] counts UTF-16 code units. *)
Definition js_length (content : js_text) : Z := Z.of_nat (length content).

(** An integral count as a JavaScript number. *)
Definition js_number (n : Z) : float := PrimFloat.of_uint63 (Uint63.of_Z n).

Definition isValidPostLength (content : js_text) : bool :=
  (MIN_POST_LENGTH <=? js_length content)
  && (js_length content <=? MAX_POST_LENGTH).

Inductive Status := safe | warning | danger.

Record CharacterCount := {
  current : Z;
  max : Z;
  remaining : Z;
  percentage : float;
  status : Status
}.

Definition getCharacterCount (content : js_text) : CharacterCount :=
  let current := js_length content in
  let remaining := MAX_POST_LENGTH - current in
  let percentage :=
    ((js_number current / js_number MAX_POST_LENGTH) * 100)%float in
  let status :=
    if PrimFloat.leb 90%float percentage then danger
    else if PrimFloat.leb 70%float percentage then warning
    else safe in
  {| current := current; max := MAX_POST_LENGTH; remaining := remaining;
     percentage := percentage; status := status |}.

(** [moderatePostResponseSchema.safeParse] on a value that has the type of a
    decision: the booleans, strings and arrays of such a value satisfy the
    schema, and the one constraint left is
    [confidenceScore: z.number().min(0).max(1)], which a NaN fails too. *)
Definition safeParse_response (d : Decision) : option Decision :=
  if PrimFloat.leb 0%float (confidenceScore d)
     && PrimFloat.leb (confidenceScore d) 1%float
  then Some d
  else None.

Definition shouldFlagForModeration (moderationResult : Decision) : bool :=
  match safeParse_response moderationResult with
  | None => true
  | Some data =>
      negb (isAllowed data)
      || PrimFloat.leb MODERATION_CONFIDENCE_THRESHOLD (confidenceScore data)
  end.
End Validations.

(** ** Client-side calls ([src/lib/api-client.ts]) *)

Module Client.
(** The [data] field of a reply as a JavaScript value; [A] is the type of
    the objects it may hold. *)
Inductive Data (A : Type) :=
  | Undefined
  | Null
  | Bool (b : bool)
  | Number (x : float)
  | Str (s : string)
  | Object (o : A).
Arguments Undefined {A}.
Arguments Null {A}.
Arguments Bool {A} _.
Arguments Number {A} _.
Arguments Str {A} _.
Arguments Object {A} _.

(** Truthiness: [undefined], [null], [false], [0], [-0], NaN and the empty
    string are falsy. *)
Definition truthy_data {A} (v : Data A) : bool :=
  match v with
  | Undefined | Null => false
  | Bool b => b
  | Number x => PrimFloat.eqb x x && negb (PrimFloat.eqb x 0%float)
  | Str s => negb (String.eqb s "")
  | Object _ => true
  end.

(** The body of a reply, read as an [ApiResponse]: [success] is a boolean and
    [error] a string when they are present. *)
Record ApiResponse (A : Type) := {
  success : option bool;
  data : Data A;
  error : option string
}.
Arguments success {A} _.
Arguments data {A} _.
Arguments error {A} _.

(** What [fetch] and then [response.json()] give: the request is rejected,
    or a reply arrives with its [ok] flag and a body that [json()] may fail
    to read ([None]). *)
Inductive Reply (A : Type) :=
  | NoReply (reason : string)
  | Answered (ok : bool) (body : option (ApiResponse A)).
Arguments NoReply {A} _.
Arguments Answered {A} _ _.

(** What the call throws: an [Error] it builds itself, or the exception of
    [fetch] or [json()] passing through. *)
Inductive Thrown :=
  | ThrownError (message : string)
  | PassedThrough.

(** [s || fallback] on an optional string: the empty string is falsy. *)
Definition or_else (s : option string) (fallback : string) : string :=
  match s with
  | Some x => if String.eqb x "" then fallback else x
  | None => fallback
  end.

Definition moderateContentAPI {A} (reply : Reply A) : Thrown + Data A :=
  match reply with
  | NoReply _ => inl PassedThrough
  | Answered ok body =>
      if negb ok then
        match body with
        | None => inl PassedThrough
        | Some errorData =>
            inl (ThrownError (or_else (error errorData) "Moderation failed"))
        end
      else
        match body with
        | None => inl PassedThrough
        | Some data' =>
            if negb (truthy (success data')) || negb (truthy_data (data data'))
            then inl (ThrownError (or_else (error data') "Moderation failed"))
            else inr (data data')
        end
  end.

(** [createPostAPI] and [publishToTwitterAPI] differ in their fallback
    message only. *)
Definition postAPI {A} (fallback : string) (reply : Reply A)
    : Thrown + Data A :=
  match reply with
  | NoReply _ => inl PassedThrough
  | Answered ok body =>
      if negb ok then
        match body with
        | None => inl PassedThrough
        | Some errorData =>
            inl (ThrownError (or_else (error errorData) fallback))
        end
      else
        match body with
        | None => inl PassedThrough
        | Some data' =>
            if negb (truthy (success data'))
            then inl (ThrownError (or_else (error data') fallback))
            else inr (data data')
        end
  end.

Definition createPostAPI {A} : Reply A -> Thrown + Data A :=
  postAPI "Failed to create post".
Definition publishToTwitterAPI {A} : Reply A -> Thrown + Data A :=
  postAPI "Failed to publish to Twitter".
End Client.

(** ** Auxiliary notions for the further properties *)

(** Whether an entry has reached its time to live at [now]. *)
Definition expired (now : Z) (e : CacheEntry) : bool :=
  TTL_MS <=? now - timestamp e.

(** A unit as [moderateContent] builds it: the eleven categories, in their
    fixed order, as the keys of both objects. *)
Definition mapped_unit (u : ModerationCategory) : Prop :=
  map fst (categories u) = MODERATION.CATEGORIES
  /\ map fst (category_scores u) = MODERATION.CATEGORIES.

(** Every cached result was built by [moderateContent]. *)
Definition cache_mapped (w : World) : Prop :=
  forall k e, moderationCache w !! k = Some e ->
    Forall mapped_unit (results (result e)).

(** The hash of Java's [String.hashCode], before wrap-around. *)
Definition poly31 (content : js_text) : Z :=
  fold_left (fun h c => 31 * h + Z.of_N c) content 0.

(** Reading a base-36 numeral back. *)
Definition digit_value (c : ascii) : Z :=
  let n := Z.of_N (N_of_ascii c) in
  if (48 <=? n) && (n <=? 57) then n - 48
  else if (97 <=? n) && (n <=? 122) then n - 87
  else 0.

Fixpoint value36 (s : string) (acc : Z) : Z :=
  match s with
  | EmptyString => acc
  | String c s' => value36 s' (36 * acc + digit_value c)
  end.

Definition parse36 (s : string) : Z :=
  match s with
  | String "-"%char s' => - value36 s' 0
  | _ => value36 s 0
  end.

(** The status of a text of [n] code units, and the status the integer
    thresholds 196 and 252 give. *)
Definition status_at (n : Z) : Validations.Status :=
  let percentage :=
    ((Validations.js_number n / Validations.js_number 280) * 100)%float in
  if PrimFloat.leb 90%float percentage then Validations.danger
  else if PrimFloat.leb 70%float percentage then Validations.warning
  else Validations.safe.

Definition status_by_length (n : Z) : Validations.Status :=
  if 252 <=? n then Validations.danger
  else if 196 <=? n then Validations.warning
  else Validations.safe.

Definition same_status (a b : Validations.Status) : bool :=
  match a, b with
  | Validations.safe, Validations.safe
  | Validations.warning, Validations.warning
  | Validations.danger, Validations.danger => true
  | _, _ => false
  end.

(** [check] holds for [count] consecutive integers from [start]. *)
Fixpoint all_from (check : Z -> bool) (start : Z) (count : nat) : bool :=
  match count with
  | O => true
  | S count' => check start && all_from check (start + 1) count'
  end.

(** * Properties *)

(** ** Sample evaluations *)

Example key_Aa : getModerationCacheKey (text_of_string "Aa") = "moderation_1mo".
Proof. reflexivity. Qed.
Example key_empty : getModerationCacheKey [] = "moderation_0".
Proof. reflexivity. Qed.
Example key_hate :
  getModerationCacheKey (text_of_string "I hate everyone") = "moderation_7zn3ey".
Proof. vm_compute. reflexivity. Qed.
Example key_negative :
  getModerationCacheKey (text_of_string "blotato") = "moderation_-cgtwz".
Proof. vm_compute. reflexivity. Qed.

(** Scenarios of the specification. *)
Example scenario_hate_everyone :
  let d := analyzeModeration
             (result_of [unit_of false [] [("harassment", 0.141%float)]]) in
  isAllowed d = false /\ flaggedCategories d = ["harassment"]
  /\ confidenceScore d = 0.141%float.
Proof. vm_compute. auto. Qed.

Example scenario_max_is_not_the_trigger :
  let d := analyzeModeration
             (result_of [unit_of false []
                [("harassment", 0.06%float); ("sexual", 0.09%float)]]) in
  isAllowed d = false /\ flaggedCategories d = ["harassment"]
  /\ confidenceScore d = 0.09%float.
Proof. vm_compute. auto. Qed.

Example scenario_clean :
  let d := analyzeModeration
             (result_of [unit_of false [] [("violence", 0.002%float)]]) in
  isAllowed d = true /\ flaggedCategories d = [].
Proof. vm_compute. auto. Qed.

Example ttl_is_one_hour :
  MODERATION.CACHE_TTL_HOURS * 60 * 60 * 1000 = TTL_MS.
Proof. reflexivity. Qed.

Example unit_of_well_formed :
  well_formed (result_of [unit_of true ["hate"] [("hate", 0.9%float)]]) = true.
Proof. vm_compute. reflexivity. Qed.

(** ** Lists and property lists *)

Lemma includes_In (l : list string) (x : string) :
  includes l x = true <-> In x l.
Proof.
  unfold includes. rewrite existsb_exists. split.
  - intros (y & Hy & E). apply String.eqb_eq in E. now subst.
  - intros H. exists x. split; [assumption | apply String.eqb_refl].
Qed.

Lemma prop_get_NoDup {A} (o : list (string * option A)) k v :
  NoDup (map fst o) -> In (k, v) o -> prop_get o k = v.
Proof.
  induction o as [|[k' v'] o IH]; simpl; intros Hnd Hin; [contradiction|].
  apply NoDup_cons in Hnd as [Hk Hnd].
  destruct Hin as [E | Hin].
  - inversion E; subst. now rewrite String.eqb_refl.
  - destruct (String.eqb_spec k k') as [-> | _]; [|auto].
    exfalso. apply Hk. apply list_elem_of_In.
    change k' with (fst (k', v)). apply in_map, Hin.
Qed.

Lemma filter_filter_bool {A} (f g : A -> bool) (l : list A) :
  List.filter f (List.filter g l) = List.filter (fun x => g x && f x) l.
Proof.
  induction l as [|x l IH]; simpl; [reflexivity|].
  destruct (g x); simpl; [destruct (f x)|]; now rewrite IH.
Qed.

Lemma filter_ext_In_bool {A} (f g : A -> bool) (l : list A) :
  (forall x, In x l -> f x = g x) -> List.filter f l = List.filter g l.
Proof.
  induction l as [|x l IH]; simpl; intros H; [reflexivity|].
  rewrite (H x) by now left. rewrite IH; [reflexivity|].
  intros y Hy. apply H. now right.
Qed.

(** ** [first_seen] is duplicate removal that keeps first occurrences *)

Lemma first_seen_In (l : list string) (x : string) :
  In x (first_seen l) <-> In x l.
Proof.
  induction l as [|y l IH]; simpl; [tauto|].
  rewrite filter_In, IH, negb_true_iff, String.eqb_neq.
  destruct (String.eqb_spec x y) as [-> | Hne]; [tauto|].
  split; [intros [E | [H _]] | intros [E | H]]; auto; congruence.
Qed.

Lemma first_seen_NoDup (l : list string) : NoDup (first_seen l).
Proof.
  induction l as [|y l IH]; simpl; [constructor|].
  apply NoDup_cons. split.
  - rewrite list_elem_of_In, filter_In, negb_true_iff, String.eqb_neq. tauto.
  - apply NoDup_ListNoDup, List.NoDup_filter, NoDup_ListNoDup, IH.
Qed.

Lemma push_unique_fold (l acc : list string) :
  fold_left push_unique l acc
  = acc ++ List.filter (fun y => negb (includes acc y)) (first_seen l).
Proof.
  revert acc. induction l as [|x l IH]; intros acc; simpl.
  - now rewrite app_nil_r.
  - rewrite IH, filter_filter_bool. unfold push_unique.
    destruct (includes acc x) eqn:Hx; simpl.
    + f_equal. apply filter_ext_In_bool. intros y _.
      destruct (String.eqb_spec y x) as [-> | _]; simpl;
        [now rewrite Hx | reflexivity].
    + rewrite <- app_assoc. simpl. do 2 f_equal.
      apply filter_ext_In_bool. intros y _.
      unfold includes. rewrite existsb_app. simpl.
      rewrite orb_false_r, negb_orb. apply andb_comm.
Qed.

(** ** The loops of [analyzeModeration], one local at a time *)

Lemma category_step_flagged scores es st :
  loc_flagged (fold_left (category_step scores) es st)
  = fold_left push_unique (map fst (List.filter (entry_violates scores) es))
      (loc_flagged st).
Proof.
  revert st. induction es as [|[c f] es IH]; intros st; simpl; [reflexivity|].
  rewrite IH. unfold entry_violates at 2. simpl.
  destruct (truthy f || js_ge (prop_get scores c) (threshold_of c));
    reflexivity.
Qed.

Lemma category_step_max scores es st :
  loc_max (fold_left (category_step scores) es st)
  = fold_left max_step (map (fun e => prop_get scores e.1) es) (loc_max st).
Proof.
  revert st. induction es as [|[c f] es IH]; intros st; simpl; [reflexivity|].
  rewrite IH. unfold max_step at 2.
  destruct (truthy f || js_ge (prop_get scores c) (threshold_of c));
    reflexivity.
Qed.

Lemma category_step_violation scores es st :
  loc_violation (fold_left (category_step scores) es st)
  = loc_violation st || existsb (entry_violates scores) es.
Proof.
  revert st. induction es as [|[c f] es IH]; intros st; simpl.
  - now rewrite orb_false_r.
  - rewrite IH. unfold entry_violates at 2. simpl.
    destruct (truthy f || js_ge (prop_get scores c) (threshold_of c)); simpl.
    + now rewrite orb_true_r.
    + reflexivity.
Qed.

Lemma result_step_flagged st u :
  loc_flagged (result_step st u)
  = fold_left push_unique (unit_violations u) (loc_flagged st).
Proof.
  unfold result_step. rewrite category_step_flagged.
  now destruct (truthy (flagged u)).
Qed.

Lemma result_step_max st u :
  loc_max (result_step st u)
  = fold_left max_step
      (map (fun e => category_score u e.1) (categories u)) (loc_max st).
Proof.
  unfold result_step. rewrite category_step_max.
  now destruct (truthy (flagged u)).
Qed.

Lemma result_step_violation st u :
  loc_violation (result_step st u)
  = loc_violation st || truthy (flagged u)
    || existsb (entry_violates (category_scores u)) (categories u).
Proof.
  unfold result_step. rewrite category_step_violation.
  destruct (truthy (flagged u)); simpl; [|now rewrite orb_false_r].
  now rewrite orb_true_r.
Qed.

Lemma results_flagged rs st :
  loc_flagged (fold_left result_step rs st)
  = fold_left push_unique (flat_map unit_violations rs) (loc_flagged st).
Proof.
  revert st. induction rs as [|u rs IH]; intros st; simpl; [reflexivity|].
  now rewrite IH, result_step_flagged, fold_left_app.
Qed.

Lemma results_max rs st :
  loc_max (fold_left result_step rs st)
  = fold_left max_step
      (flat_map (fun u => map (fun e => category_score u e.1) (categories u)) rs)
      (loc_max st).
Proof.
  revert st. induction rs as [|u rs IH]; intros st; simpl; [reflexivity|].
  now rewrite IH, result_step_max, fold_left_app.
Qed.

Lemma results_violation rs st :
  loc_violation (fold_left result_step rs st)
  = loc_violation st
    || existsb (fun u => truthy (flagged u)) rs
    || negb (forallb (fun u => match unit_violations u with
                               | [] => true | _ => false end) rs).
Proof.
  revert st. induction rs as [|u rs IH]; intros st; simpl.
  - now rewrite !orb_false_r.
  - rewrite IH, result_step_violation.
    assert (E : existsb (entry_violates (category_scores u)) (categories u)
                = match unit_violations u with [] => false | _ => true end).
    { unfold unit_violations.
      induction (categories u) as [|e es IHes]; simpl; [reflexivity|].
      destruct (entry_violates (category_scores u) e); simpl; auto. }
    rewrite E.
    destruct (loc_violation st), (truthy (flagged u)), (unit_violations u);
      simpl; rewrite ?orb_true_r; reflexivity.
Qed.

Lemma analyze_flagged rs :
  loc_flagged (analyze_loop rs) = first_seen (flat_map unit_violations rs).
Proof.
  unfold analyze_loop. rewrite results_flagged, push_unique_fold. simpl.
  induction (first_seen _) as [|x l IH]; simpl; congruence.
Qed.

(** ** Well-formed units *)

Lemma same_keys_spec ks :
  same_keys ks = true ->
  NoDup ks /\ forall c, In c ks <-> In c MODERATION.CATEGORIES.
Proof.
  unfold same_keys, nodupb. rewrite !andb_true_iff, !forallb_forall.
  intros [[Hnd H1] H2]. apply bool_decide_eq_true in Hnd. split; [assumption|].
  intros c. split; intros H.
  - apply includes_In, H1, H.
  - apply includes_In, H2, H.
Qed.

Lemma well_formed_unit_spec u :
  well_formed_unit u = true ->
  NoDup (map fst (categories u))
  /\ (forall c, In c (map fst (categories u)) <-> In c MODERATION.CATEGORIES)
  /\ (forall c, In c MODERATION.CATEGORIES ->
        exists s, category_score u c = Some s).
Proof.
  unfold well_formed_unit. rewrite !andb_true_iff.
  intros [[[_ Hk] _] Hs]. apply same_keys_spec in Hk as [Hnd Hk].
  repeat split; try assumption; try apply Hk.
  intros c Hc. rewrite forallb_forall in Hs. specialize (Hs c Hc).
  destruct (category_score u c); [eauto | discriminate].
Qed.

Lemma well_formed_In r u :
  well_formed r = true -> In u (results r) -> well_formed_unit u = true.
Proof. unfold well_formed. rewrite forallb_forall. auto. Qed.

Lemma unit_violations_keys u :
  NoDup (map fst (categories u)) ->
  unit_violations u = List.filter (violates u) (map fst (categories u)).
Proof.
  intros Hnd. unfold unit_violations.
  assert (H : forall e, In e (categories u) ->
            entry_violates (category_scores u) e = violates u e.1).
  { intros [c f] Hin. unfold entry_violates, violates, category_flag,
      category_score. simpl. now rewrite (prop_get_NoDup _ c f Hnd Hin). }
  clear Hnd. induction (categories u) as [|e es IH]; simpl; [reflexivity|].
  rewrite (H e) by now left.
  destruct (violates u e.1); simpl; rewrite IH; auto;
    intros e' He'; apply H; now right.
Qed.

Lemma violations_flat_map r :
  well_formed r = true ->
  flat_map unit_violations (results r) = violations r.
Proof.
  intros Hwf. unfold violations.
  assert (H : forall u, In u (results r) -> well_formed_unit u = true)
    by (intros u; apply well_formed_In, Hwf).
  clear Hwf. induction (results r) as [|u rs IH]; simpl; [reflexivity|].
  rewrite IH by (intros u' Hu'; apply H; now right).
  rewrite unit_violations_keys; [reflexivity|].
  apply well_formed_unit_spec, H. now left.
Qed.

(** ** C1: the flagged categories are the violating categories *)

Lemma violates_spec u c :
  violates u c = true <->
  category_flag u c = true
  \/ exists s, category_score u c = Some s
               /\ PrimFloat.leb (threshold_of c) s = true.
Proof.
  unfold violates. rewrite orb_true_iff. unfold js_ge.
  destruct (category_score u c) as [s|]; split; intros [H | H]; auto.
  - right. eauto.
  - destruct H as (s' & E & H). inversion E; subst. auto.
  - discriminate.
  - destruct H as (s' & E & _). discriminate.
Qed.

Lemma violations_In r c :
  well_formed r = true ->
  In c (violations r) <->
  In c MODERATION.CATEGORIES
  /\ exists u, In u (results r) /\ violates u c = true.
Proof.
  intros Hwf. unfold violations. rewrite in_flat_map. split.
  - intros (u & Hu & Hc). apply filter_In in Hc as [Hk Hv].
    pose proof (well_formed_unit_spec u (well_formed_In r u Hwf Hu))
      as (_ & Hkeys & _).
    split; [now apply Hkeys | eauto].
  - intros (Hc & u & Hu & Hv).
    pose proof (well_formed_unit_spec u (well_formed_In r u Hwf Hu))
      as (_ & Hkeys & _).
    exists u. split; [assumption|]. apply filter_In. split; [|assumption].
    now apply Hkeys.
Qed.

(** C1. For a well-formed response, a category is in [flaggedCategories]
    exactly when it is one of the eleven categories and some unit carries a
    true flag for it or a score at or above the threshold of its class
    ([>=]: a score equal to the threshold counts); no category is listed
    twice, and the list is in first-seen order. The threshold is 0.05 for
    the four hate and harassment categories and 0.1 for the other seven. *)
Theorem flagged_categories_are_violations (r : ModerationResult) :
  well_formed r = true ->
  let d := analyzeModeration r in
  (forall c,
     In c (flaggedCategories d) <->
     In c MODERATION.CATEGORIES
     /\ exists u, In u (results r)
        /\ (category_flag u c = true
            \/ exists s, category_score u c = Some s
                         /\ PrimFloat.leb (threshold_of c) s = true))
  /\ NoDup (flaggedCategories d)
  /\ flaggedCategories d = first_seen (violations r)
  /\ Forall (fun c => threshold_of c = 0.05%float)
       [ "hate"; "hate/threatening"; "harassment"; "harassment/threatening" ]
  /\ Forall (fun c => threshold_of c = 0.1%float)
       [ "self-harm"; "self-harm/intent"; "self-harm/instructions";
         "sexual"; "sexual/minors"; "violence"; "violence/graphic" ].
Proof.
  intros Hwf d.
  assert (E : flaggedCategories d = first_seen (violations r)).
  { unfold d, analyzeModeration. simpl.
    now rewrite analyze_flagged, violations_flat_map. }
  split; [|split; [|split; [exact E|]]].
  - intros c. rewrite E, first_seen_In, (violations_In r c Hwf).
    split; intros (Hc & u & Hu & Hv); (split; [assumption|]);
      exists u; (split; [assumption|]); now apply violates_spec.
  - rewrite E. apply first_seen_NoDup.
  - split; repeat constructor.
Qed.

Lemma flagged_categories_are_violations_witness :
  let r := result_of
             [ unit_of false [] [("sexual", 0.3%float); ("hate", 0.05%float)];
               unit_of true ["violence"] [("sexual", 0.2%float)] ] in
  well_formed r = true
  /\ flaggedCategories (analyzeModeration r) = ["hate"; "sexual"; "violence"]
  /\ NoDup (flaggedCategories (analyzeModeration r)).
Proof.
  intros r.
  split; [reflexivity|]. split; [reflexivity|].
  exact (proj1 (proj2 (flagged_categories_are_violations r eq_refl))).
Defined.

(** Boundary: a score equal to the threshold is a violation, a score just
    below is not. *)
Example boundary_high_sensitivity :
  flaggedCategories (analyzeModeration
    (result_of [unit_of false [] [("hate", 0.05%float)]])) = ["hate"]
  /\ flaggedCategories (analyzeModeration
    (result_of [unit_of false [] [("hate", 0.049999%float)]])) = [].
Proof. split; reflexivity. Qed.

Example boundary_standard :
  flaggedCategories (analyzeModeration
    (result_of [unit_of false [] [("violence", 0.1%float)]])) = ["violence"]
  /\ flaggedCategories (analyzeModeration
    (result_of [unit_of false [] [("violence", 0.099999%float)]])) = [].
Proof. split; reflexivity. Qed.

(** ** C3: when is content allowed *)

Lemma analyze_isAllowed r :
  isAllowed (analyzeModeration r)
  = negb (existsb (fun u => truthy (flagged u)) (results r))
    && match flaggedCategories (analyzeModeration r) with
       | [] => true | _ => false end.
Proof.
  unfold analyzeModeration. simpl. rewrite analyze_flagged.
  unfold analyze_loop. rewrite results_violation. simpl.
  rewrite negb_orb, negb_involutive. f_equal.
  induction (results r) as [|u rs IH]; simpl; [reflexivity|].
  destruct (unit_violations u); simpl; [exact IH | reflexivity].
Qed.

(** C3 as stated fails: a unit whose overall [flagged] is set blocks the
    content although no category is listed. *)
Lemma allowed_iff_no_category_counterexample :
  let r := result_of [unit_of true [] []] in
  well_formed r = true
  /\ ~ (isAllowed (analyzeModeration r) = true
        <-> flaggedCategories (analyzeModeration r) = []).
Proof.
  split; [reflexivity|]. intros [_ H]. specialize (H eq_refl). discriminate H.
Qed.

(** C3, amended. Content is allowed exactly when no category is flagged and
    no unit has its overall [flagged] set. *)
Theorem allowed_iff_nothing_flagged (r : ModerationResult) :
  isAllowed (analyzeModeration r) = true <->
  flaggedCategories (analyzeModeration r) = []
  /\ forall u, In u (results r) -> flagged u <> Some true.
Proof.
  rewrite analyze_isAllowed, andb_true_iff, negb_true_iff.
  rewrite <- not_true_iff_false, existsb_exists.
  destruct (flaggedCategories (analyzeModeration r)) as [|c l].
  - split.
    + intros [H _]. split; [reflexivity|]. intros u Hu E. apply H.
      exists u. split; [assumption|]. now rewrite E.
    + intros [_ H]. split; [|reflexivity]. intros (u & Hu & E).
      apply (H u Hu). unfold truthy in E.
      destruct (flagged u) as [[]|]; congruence.
  - split; [intros [_ ?] | intros [? _]]; discriminate.
Qed.

(** ** Order on binary64 values, from the specification of the comparisons *)

Section float_order.
Local Open Scope float_scope.

Local Ltac pos_compare :=
  repeat match goal with
  | H : context [PosDef.Pos.compare_cont Eq ?a ?b] |- _ =>
      change (PosDef.Pos.compare_cont Eq a b) with (a ?= b)%positive in H
  | |- context [PosDef.Pos.compare_cont Eq ?a ?b] =>
      change (PosDef.Pos.compare_cont Eq a b) with (a ?= b)%positive
  end.

Local Ltac by_cases :=
  pos_compare;
  repeat match goal with
  | H : context [(?a ?= ?b)%Z] |- _ =>
      let E := fresh in
      destruct (Z.compare_spec a b) as [E|E|E]; simpl in H; try discriminate
  | H : context [(?a ?= ?b)%positive] |- _ =>
      let E := fresh in
      destruct (Pos.compare_spec a b) as [E|E|E]; simpl in H; try discriminate
  end; subst;
  repeat match goal with
  | |- context [(?a ?= ?b)%Z] =>
      let E := fresh in
      destruct (Z.compare_spec a b) as [E|E|E]; simpl; try lia
  | |- context [(?a ?= ?b)%positive] =>
      let E := fresh in
      destruct (Pos.compare_spec a b) as [E|E|E]; simpl; try lia
  end; try reflexivity; try lia.

Lemma SFleb_trans x y z :
  SFleb x y = true -> SFleb y z = true -> SFleb x z = true.
Proof.
  unfold SFleb.
  destruct x as [[]|[]| |[] mx ex], y as [[]|[]| |[] my ey],
           z as [[]|[]| |[] mz ez]; simpl; try discriminate; try reflexivity;
    intros H1 H2; by_cases.
Qed.

Lemma SFltb_SFleb x y : SFltb x y = true -> SFleb x y = true.
Proof.
  unfold SFltb, SFleb. destruct (SFcompare x y) as [[]|]; congruence.
Qed.

Lemma SFleb_total x y :
  SFleb x x = true -> SFleb y y = true -> SFltb x y = false ->
  SFleb y x = true.
Proof.
  unfold SFleb, SFltb.
  destruct x as [[]|[]| |[] mx ex], y as [[]|[]| |[] my ey]; simpl;
    try discriminate; try reflexivity; intros _ _ H; by_cases.
Qed.

Lemma SFleb_antisym x y :
  SFleb x y = true -> SFleb y x = true -> SFeqb x y = true.
Proof.
  unfold SFleb, SFeqb.
  destruct x as [[]|[]| |[] mx ex], y as [[]|[]| |[] my ey]; simpl;
    try discriminate; try reflexivity; intros H1 H2; by_cases.
Qed.

Lemma SFleb_refl_l x y : SFleb x y = true -> SFleb x x = true.
Proof.
  unfold SFleb.
  destruct x as [[]|[]| |[] mx ex], y as [[]|[]| |[] my ey]; simpl;
    try discriminate; try reflexivity; intros _; pos_compare;
    rewrite Z.compare_refl, Pos.compare_refl; reflexivity.
Qed.

Lemma SFleb_refl_r x y : SFleb x y = true -> SFleb y y = true.
Proof.
  unfold SFleb.
  destruct x as [[]|[]| |[] mx ex], y as [[]|[]| |[] my ey]; simpl;
    try discriminate; try reflexivity; intros _; pos_compare;
    rewrite Z.compare_refl, Pos.compare_refl; reflexivity.
Qed.

Lemma fle_trans a b c :
  (a <=? b) = true -> (b <=? c) = true -> (a <=? c) = true.
Proof. rewrite !leb_spec. apply SFleb_trans. Qed.

Lemma flt_fle a b : (a <? b) = true -> (a <=? b) = true.
Proof. rewrite ltb_spec, leb_spec. apply SFltb_SFleb. Qed.

Lemma fle_total a b :
  (a <=? a) = true -> (b <=? b) = true -> (a <? b) = false ->
  (b <=? a) = true.
Proof. rewrite ltb_spec, !leb_spec. apply SFleb_total. Qed.

Lemma fle_antisym a b :
  (a <=? b) = true -> (b <=? a) = true -> (a =? b) = true.
Proof. rewrite !leb_spec, FloatAxioms.eqb_spec. apply SFleb_antisym. Qed.

Lemma fle_refl_r a b : (a <=? b) = true -> (b <=? b) = true.
Proof. rewrite !leb_spec. apply SFleb_refl_r. Qed.
End float_order.

(** ** C4: the confidence score is the largest score observed *)

Lemma max_step_fold (l : list (option float)) (m0 : float) :
  PrimFloat.leb m0 m0 = true ->
  (forall o, In o l -> exists s, o = Some s /\ PrimFloat.leb s s = true) ->
  let m := fold_left max_step l m0 in
  PrimFloat.leb m0 m = true
  /\ (forall s, In (Some s) l -> PrimFloat.leb s m = true)
  /\ (m = m0 \/ In (Some m) l).
Proof.
  revert m0. induction l as [|o l IH]; intros m0 Hm0 Hl; simpl.
  - repeat split; [assumption | contradiction | now left].
  - destruct (Hl o (or_introl eq_refl)) as (s & -> & Hs).
    assert (Hl' : forall o, In o l ->
              exists s, o = Some s /\ PrimFloat.leb s s = true)
      by (intros o Ho; apply Hl; now right).
    change (max_step m0 (Some s)) with (if PrimFloat.ltb m0 s then s else m0).
    destruct (PrimFloat.ltb m0 s) eqn:Hlt.
    + destruct (IH s Hs Hl') as (H1 & H2 & H3).
      repeat split.
      * eapply fle_trans; [apply flt_fle, Hlt | exact H1].
      * intros s' [E | Hin]; [inversion E; subst; exact H1 | now apply H2].
      * destruct H3 as [-> | H3]; right; [now left | now right].
    + destruct (IH m0 Hm0 Hl') as (H1 & H2 & H3).
      repeat split.
      * exact H1.
      * intros s' [E | Hin]; [|now apply H2]. inversion E; subst.
        eapply fle_trans; [|exact H1]. now apply fle_total.
      * destruct H3 as [-> | H3]; [now left | right; now right].
Qed.

Lemma analyze_confidence r :
  confidenceScore (analyzeModeration r)
  = fold_left max_step (observed_scores r) 0%float.
Proof. unfold analyzeModeration, analyze_loop. simpl. apply results_max. Qed.

Lemma observed_scores_In r o :
  well_formed r = true ->
  In o (observed_scores r) <->
  exists u c, In u (results r) /\ In c MODERATION.CATEGORIES
              /\ category_score u c = o.
Proof.
  intros Hwf. unfold observed_scores. rewrite in_flat_map. split.
  - intros (u & Hu & Ho). apply in_map_iff in Ho as (e & <- & He).
    pose proof (well_formed_unit_spec u (well_formed_In r u Hwf Hu))
      as (_ & Hkeys & _).
    exists u, e.1. split; [assumption|]. split; [|reflexivity].
    apply Hkeys. now apply in_map.
  - intros (u & c & Hu & Hc & <-).
    pose proof (well_formed_unit_spec u (well_formed_In r u Hwf Hu))
      as (_ & Hkeys & _).
    exists u. split; [assumption|].
    apply Hkeys, in_map_iff in Hc as (e & <- & He).
    apply in_map_iff. eauto.
Qed.

Lemma probability_spec r u c s :
  scores_are_probabilities r = true ->
  In u (results r) -> In c MODERATION.CATEGORIES ->
  category_score u c = Some s ->
  PrimFloat.leb 0%float s = true /\ PrimFloat.leb s 1%float = true.
Proof.
  unfold scores_are_probabilities. rewrite forallb_forall.
  intros H Hu Hc Hs. specialize (H u Hu). rewrite forallb_forall in H.
  specialize (H c Hc). rewrite Hs in H. now apply andb_true_iff in H.
Qed.

(** C4. For a well-formed response whose scores are probabilities, the
    confidence score is the maximum of the scores of all units and all eleven
    categories: it is at least every score and it is the score of some
    category of some unit (equal as numbers, JavaScript's [===]), whatever
    that category did to the decision; it is 0 when there is no unit. *)
Theorem confidence_is_max_score (r : ModerationResult) :
  well_formed r = true ->
  scores_are_probabilities r = true ->
  let m := confidenceScore (analyzeModeration r) in
  (results r = [] -> m = 0%float)
  /\ (forall u c s,
        In u (results r) -> In c MODERATION.CATEGORIES ->
        category_score u c = Some s -> PrimFloat.leb s m = true)
  /\ (results r <> [] ->
      exists u c s,
        In u (results r) /\ In c MODERATION.CATEGORIES
        /\ category_score u c = Some s /\ PrimFloat.eqb m s = true).
Proof.
  intros Hwf Hp m.
  assert (Hnum : forall o, In o (observed_scores r) ->
            exists s, o = Some s /\ PrimFloat.leb s s = true).
  { intros o Ho. apply (observed_scores_In r o Hwf) in Ho
      as (u & c & Hu & Hc & Hs).
    pose proof (well_formed_unit_spec u (well_formed_In r u Hwf Hu))
      as (_ & _ & Hsc).
    destruct (Hsc c Hc) as (s & E). exists s. split; [congruence|].
    eapply fle_refl_r, (probability_spec r u c s Hp Hu Hc E). }
  pose proof (max_step_fold (observed_scores r) 0%float eq_refl Hnum)
    as (H0 & Hub & Hatt).
  rewrite <- analyze_confidence in H0, Hub, Hatt. fold m in H0, Hub, Hatt.
  assert (Hub' : forall u c s,
            In u (results r) -> In c MODERATION.CATEGORIES ->
            category_score u c = Some s -> PrimFloat.leb s m = true).
  { intros u c s Hu Hc Hs. apply Hub.
    apply (observed_scores_In r (Some s) Hwf). eauto. }
  clear Hub. rename Hub' into Hub.
  split; [|split].
  - intros E. unfold m. rewrite analyze_confidence.
    unfold observed_scores. now rewrite E.
  - exact Hub.
  - intros Hne. destruct Hatt as [E | Hin].
    + assert (exists u, In u (results r)) as [u Hu]
        by (destruct (results r) as [|u ?]; [congruence | exists u; now left]).
      assert (Hc : In "hate" MODERATION.CATEGORIES) by now left.
      pose proof (well_formed_unit_spec u (well_formed_In r u Hwf Hu))
        as (_ & _ & Hsc).
      destruct (Hsc "hate" Hc) as (s & Hs).
      exists u, "hate", s. repeat split; try assumption.
      apply fle_antisym.
      * rewrite E. apply (probability_spec r u "hate" s Hp Hu Hc Hs).
      * now apply (Hub u "hate" s).
    + apply (observed_scores_In r (Some m) Hwf) in Hin
        as (u & c & Hu & Hc & Hs).
      exists u, c, m. repeat split; try assumption.
      apply fle_antisym; eapply fle_refl_r, (Hub u c m Hu Hc Hs).
Qed.

Lemma confidence_is_max_score_witness :
  let r := result_of
             [ unit_of false []
                 [("harassment", 0.14%float); ("sexual", 0.30%float)] ] in
  well_formed r = true
  /\ scores_are_probabilities r = true
  /\ flaggedCategories (analyzeModeration r) = ["harassment"; "sexual"]
  /\ confidenceScore (analyzeModeration r) = 0.30%float
  /\ forall u c s,
       In u (results r) -> In c MODERATION.CATEGORIES ->
       category_score u c = Some s ->
       PrimFloat.leb s (confidenceScore (analyzeModeration r)) = true.
Proof.
  intros r. repeat (split; [reflexivity|]).
  exact (proj1 (proj2 (confidence_is_max_score r eq_refl eq_refl))).
Defined.

(** ** The cache key *)

Lemma to_int32_range z : int32 (to_int32 z).
Proof.
  unfold int32, to_int32.
  assert (H : 0 < 2 ^ 32) by reflexivity.
  pose proof (Z.mod_pos_bound (z + 2 ^ 31) (2 ^ 32) H) as B.
  change (2 ^ 32) with (2 * 2 ^ 31) in *.
  generalize dependent (2 ^ 31). intros. lia.
Qed.

Lemma to_int32_id z : int32 z -> to_int32 z = z.
Proof.
  unfold int32, to_int32. intros H.
  change (2 ^ 32) with (2 * 2 ^ 31).
  rewrite Z.mod_small; generalize dependent (2 ^ 31); intros; lia.
Qed.

Lemma to_int32_add_l a b : to_int32 (to_int32 a + b) = to_int32 (a + b).
Proof.
  unfold to_int32. f_equal.
  replace ((a + 2 ^ 31) mod 2 ^ 32 - 2 ^ 31 + b + 2 ^ 31)
    with ((a + 2 ^ 31) mod 2 ^ 32 + b) by ring.
  rewrite Zplus_mod_idemp_l. f_equal. ring.
Qed.

Lemma hash_step_range h c : int32 (hash_step h c).
Proof. unfold hash_step, js_and. apply to_int32_range. Qed.

Lemma fold_left_cons {A B} (f : A -> B -> A) (x : B) (l : list B) (a : A) :
  fold_left f (x :: l) a = fold_left f l (f a x).
Proof. reflexivity. Qed.

Lemma hash_fold_range l :
  forall h, int32 h -> int32 (fold_left hash_step l h).
Proof.
  induction l as [|c l IH]; intros h Hh; [exact Hh|].
  rewrite fold_left_cons. apply IH, hash_step_range.
Qed.

Lemma content_hash_range content : int32 (content_hash content).
Proof.
  apply hash_fold_range. split; [discriminate | reflexivity].
Qed.

(** On 32-bit values the loop body is [31 * hash + char], wrapped. *)
Lemma hash_step_31 h c :
  int32 h -> hash_step h c = to_int32 (31 * h + Z.of_N c).
Proof.
  intros Hh. unfold hash_step, js_and, js_shl.
  rewrite Z.land_diag, (to_int32_id h Hh), Z.shiftl_mul_pow2 by discriminate.
  rewrite (to_int32_id (to_int32 _)) by apply to_int32_range.
  replace (to_int32 (h * 2 ^ 5) - h + Z.of_N c)
    with (to_int32 (h * 2 ^ 5) + (Z.of_N c - h)) by ring.
  rewrite to_int32_add_l. f_equal. change (2 ^ 5) with 32. ring.
Qed.

Lemma isCacheValid_spec now ts :
  isCacheValid now ts = true <-> now - ts < TTL_MS.
Proof. unfold isCacheValid. apply Z.ltb_lt. Qed.

Lemma isCacheValid_false now ts :
  isCacheValid now ts = false <-> now - ts >= TTL_MS.
Proof.
  unfold isCacheValid. rewrite Z.ltb_ge.
  change (MODERATION.CACHE_TTL_HOURS * 60 * 60 * 1000) with TTL_MS. lia.
Qed.

(** ** The three outcomes of a lookup *)

Lemma lookup_hit now content w e :
  moderationCache w !! getModerationCacheKey content = Some e ->
  now - timestamp e < TTL_MS ->
  getCachedModeration now content w = (Some (result e), w).
Proof.
  intros He Hlt. unfold getCachedModeration. rewrite He.
  apply isCacheValid_spec in Hlt. now rewrite Hlt.
Qed.

Lemma lookup_expired now content w e :
  moderationCache w !! getModerationCacheKey content = Some e ->
  now - timestamp e >= TTL_MS ->
  getCachedModeration now content w
  = (None, set_cache w (delete (getModerationCacheKey content)
                               (moderationCache w))).
Proof.
  intros He Hge. unfold getCachedModeration. rewrite He.
  apply isCacheValid_false in Hge. now rewrite Hge.
Qed.

Lemma lookup_absent now content w :
  moderationCache w !! getModerationCacheKey content = None ->
  getCachedModeration now content w = (None, w).
Proof. intros He. unfold getCachedModeration. now rewrite He. Qed.

Lemma lookup_found now content w r :
  (getCachedModeration now content w).1 = Some r ->
  exists e, moderationCache w !! getModerationCacheKey content = Some e
            /\ now - timestamp e < TTL_MS /\ r = result e.
Proof.
  unfold getCachedModeration.
  destruct (moderationCache w !! getModerationCacheKey content) as [e|];
    [|discriminate].
  destruct (isCacheValid now (timestamp e)) eqn:Hv; [|discriminate].
  simpl. intros E. inversion E; subst. exists e.
  apply isCacheValid_spec in Hv. auto.
Qed.

Lemma lookup_makes_no_call now content w :
  remoteCalls (getCachedModeration now content w).2 = remoteCalls w.
Proof.
  unfold getCachedModeration.
  destruct (moderationCache w !! getModerationCacheKey content) as [e|];
    [|reflexivity].
  destruct (isCacheValid now (timestamp e)); reflexivity.
Qed.

(** ** C6: cache lookup *)

(** C6. A lookup returns the stored result exactly when the cache holds an
    entry under the fingerprint of the text whose age is below the time to
    live (one hour), and then leaves the cache as it is; an entry whose age
    has reached the time to live is deleted and the lookup reports nothing;
    without an entry it reports nothing. No remote call is made. *)
Theorem cache_lookup_spec (now : Z) (content : js_text) (w : World) :
  let key := getModerationCacheKey content in
  let found := (getCachedModeration now content w).1 in
  let w' := (getCachedModeration now content w).2 in
  (forall r, found = Some r <->
     exists e, moderationCache w !! key = Some e
               /\ now - timestamp e < 3600000 /\ r = result e)
  /\ (forall e, moderationCache w !! key = Some e ->
        now - timestamp e < 3600000 -> w' = w)
  /\ (forall e, moderationCache w !! key = Some e ->
        now - timestamp e >= 3600000 ->
        found = None
        /\ moderationCache w' = delete key (moderationCache w)
        /\ moderationCache w' !! key = None)
  /\ (moderationCache w !! key = None -> found = None /\ w' = w)
  /\ remoteCalls w' = remoteCalls w.
Proof.
  intros key found w'. subst found w'. change 3600000 with TTL_MS.
  split; [|split; [|split; [|split]]].
  - intros r. split.
    + apply lookup_found.
    + intros (e & He & Hlt & ->). now rewrite (lookup_hit now content w e).
  - intros e He Hlt. now rewrite (lookup_hit now content w e).
  - intros e He Hge. rewrite (lookup_expired now content w e He Hge). simpl.
    repeat split. apply lookup_delete_eq.
  - intros He. now rewrite (lookup_absent now content w He).
  - apply lookup_makes_no_call.
Qed.

(** ** C10: distinct texts may share a cache key *)

Lemma store_then_lookup a b r t now w :
  getModerationCacheKey a = getModerationCacheKey b ->
  now - t < TTL_MS ->
  (getCachedModeration now b (cacheModeration t a r w)).1 = Some r.
Proof.
  intros Hk Hlt. unfold getCachedModeration, cacheModeration. simpl.
  rewrite <- Hk, lookup_insert_eq. simpl.
  apply isCacheValid_spec in Hlt. now rewrite Hlt.
Qed.

(** C10. The key is a 32-bit hash written in base 36 after a fixed prefix.
    It is not injective: "Aa" and "BB" are distinct texts with the same key;
    and whenever two texts share a key, looking one up within the time to
    live of a store for the other returns what was stored for the other. *)
Theorem cache_key_collides :
  (forall content,
     - 2 ^ 31 <= content_hash content < 2 ^ 31
     /\ getModerationCacheKey content
        = "moderation_" +:+ toString36 (content_hash content))
  /\ (exists a b, a <> b /\ getModerationCacheKey a = getModerationCacheKey b)
  /\ (forall a b r t now w,
        a <> b -> getModerationCacheKey a = getModerationCacheKey b ->
        now - t < 3600000 ->
        (getCachedModeration now b (cacheModeration t a r w)).1 = Some r).
Proof.
  split; [|split].
  - intros content. split; [apply content_hash_range | reflexivity].
  - exists (text_of_string "Aa"), (text_of_string "BB").
    split; [discriminate | reflexivity].
  - intros a b r t now w _. apply store_then_lookup.
Qed.

Example collision_Aa_BB :
  let a := text_of_string "Aa" in
  let b := text_of_string "BB" in
  let stored := result_of [unit_of true ["hate"] [("hate", 0.9%float)]] in
  let w := cacheModeration 1000 a stored
             {| moderationCache := ∅; remoteCalls := 1 |} in
  a <> b
  /\ (moderateContent 2000 2001 b (Rejected "unused") w).1
     = analyzeModeration stored.
Proof.
  split; [discriminate|].
  unfold moderateContent, moderateContent_try.
  destruct (getCachedModeration _ _ _) as [found w'] eqn:E.
  assert (H : found = Some (result_of [unit_of true ["hate"] [("hate", 0.9%float)]])).
  { change found with ((found, w').1). rewrite <- E.
    apply store_then_lookup; [reflexivity | unfold TTL_MS; lia]. }
  now rewrite H.
Qed.

(** ** C2: classification failures are absorbed into the conservative result *)

Lemma try_on_miss now_lookup now_store content remote w :
  (getCachedModeration now_lookup content w).1 = None ->
  moderateContent_try now_lookup now_store content remote w
  = let w1 := (getCachedModeration now_lookup content w).2 in
    let w2 := {| moderationCache := moderationCache w1;
                 remoteCalls := S (remoteCalls w1) |} in
    match remote with
    | Rejected reason => (inl (RemoteError reason), w2)
    | Fulfilled response =>
        match raw_results response with
        | None => (inl TypeError, w2)
        | Some rs =>
            match map_results rs with
            | inl e => (inl e, w2)
            | inr us =>
                let mr := {| id := raw_id response; model := raw_model response;
                             results := us |} in
                (inr (analyzeModeration mr),
                 cacheModeration now_store content mr w2)
            end
        end
    end.
Proof.
  unfold moderateContent_try.
  destruct (getCachedModeration now_lookup content w) as [found w1].
  simpl. now intros ->.
Qed.

Lemma try_on_hit now_lookup now_store content remote w r :
  (getCachedModeration now_lookup content w).1 = Some r ->
  moderateContent_try now_lookup now_store content remote w
  = (inr (analyzeModeration r), (getCachedModeration now_lookup content w).2).
Proof.
  unfold moderateContent_try.
  destruct (getCachedModeration now_lookup content w) as [found w1].
  simpl. now intros ->.
Qed.

(** C2. On a cache miss, when classification fails outright the [try] block
    raises, nothing is raised past [moderateContent], and its answer is the
    conservative decision: not allowed, the single category "error",
    confidence 1.0. *)
Theorem failure_is_fail_closed (now_lookup now_store : Z) (content : js_text)
    (remote : Outcome) (w : World) :
  (getCachedModeration now_lookup content w).1 = None ->
  classification_fails remote = true ->
  let d := (moderateContent now_lookup now_store content remote w).1 in
  (exists e, (moderateContent_try now_lookup now_store content remote w).1 = inl e)
  /\ d = ERROR_DECISION
  /\ isAllowed d = false
  /\ flaggedCategories d = ["error"]
  /\ confidenceScore d = 1.0%float.
Proof.
  intros Hmiss Hfail d. subst d. unfold moderateContent.
  rewrite (try_on_miss _ _ _ _ _ Hmiss). simpl.
  unfold classification_fails in Hfail.
  destruct remote as [reason | response]; simpl.
  - repeat split; eauto.
  - destruct (raw_results response) as [rs|]; simpl.
    + destruct (map_results rs) as [e|us]; [|discriminate]. simpl.
      repeat split; eauto.
    + repeat split; eauto.
Qed.

Lemma failure_is_fail_closed_witness :
  (moderateContent 10 20 (text_of_string "I hate everyone")
     (Rejected "Request timed out.") EMPTY_WORLD).1 = ERROR_DECISION.
Proof.
  exact (proj1 (proj2 (failure_is_fail_closed 10 20
    (text_of_string "I hate everyone") (Rejected "Request timed out.")
    EMPTY_WORLD eq_refl eq_refl))).
Defined.

(** The [catch] block takes whatever the [try] block raises. *)
Lemma any_exception_is_fail_closed now_lookup now_store content remote w e :
  (moderateContent_try now_lookup now_store content remote w).1 = inl e ->
  (moderateContent now_lookup now_store content remote w).1 = ERROR_DECISION.
Proof.
  unfold moderateContent.
  destruct (moderateContent_try _ _ _ _ _) as [[e'|d] w']; simpl;
    [reflexivity | discriminate].
Qed.

(** ** C5: a repeated call is served from the cache *)

(** C5. When a call for a text misses the cache and its classification
    succeeds, a second call for the same text before the stored entry is one
    hour old issues no further request, leaves the cache as it is and
    returns the same decision, whatever the classifier would answer then.
    Equal texts have equal keys. *)
Theorem repeated_call_hits_cache (t1 t1' t2 t2' : Z) (content : js_text)
    (response : RawResponse) (remote2 : Outcome) (w0 : World) :
  (getCachedModeration t1 content w0).1 = None ->
  classification_fails (Fulfilled response) = false ->
  t2 - t1' < 3600000 ->
  let first := moderateContent t1 t1' content (Fulfilled response) w0 in
  let second := moderateContent t2 t2' content remote2 first.2 in
  remoteCalls first.2 = S (remoteCalls w0)
  /\ remoteCalls second.2 = S (remoteCalls w0)
  /\ (getCachedModeration t2 content first.2).1 = Some (moderationResult first.1)
  /\ second.1 = first.1
  /\ second.2 = first.2
  /\ forall content', content' = content ->
       getModerationCacheKey content' = getModerationCacheKey content.
Proof.
  intros Hmiss Hok Hlt first second.
  assert (Hcalls : remoteCalls (getCachedModeration t1 content w0).2
                   = remoteCalls w0)
    by apply lookup_makes_no_call.
  unfold classification_fails in Hok.
  destruct (raw_results response) as [rs|] eqn:Hrs; [|discriminate].
  destruct (map_results rs) as [e|us] eqn:Hus; [discriminate|].
  set (mr := {| id := raw_id response; model := raw_model response;
                results := us |}).
  set (w1 := (getCachedModeration t1 content w0).2) in *.
  set (w2 := {| moderationCache := moderationCache w1;
                remoteCalls := S (remoteCalls w1) |}).
  assert (Hfirst : first = (analyzeModeration mr,
                            cacheModeration t1' content mr w2)).
  { unfold first, moderateContent.
    rewrite (try_on_miss _ _ _ _ _ Hmiss). simpl. now rewrite Hrs, Hus. }
  assert (Hhit : (getCachedModeration t2 content first.2).1 = Some mr).
  { rewrite Hfirst. simpl. now apply store_then_lookup. }
  assert (Hsame : (getCachedModeration t2 content first.2).2 = first.2).
  { apply lookup_found in Hhit as (e & He & Hage & _).
    now rewrite (lookup_hit t2 content first.2 e He Hage). }
  assert (Hsecond : second = (analyzeModeration mr, first.2)).
  { unfold second, moderateContent.
    rewrite (try_on_hit _ _ _ _ _ _ Hhit). simpl. now rewrite Hsame. }
  rewrite Hsecond. rewrite Hfirst in *. simpl.
  repeat split; try congruence. exact Hhit.
Qed.

Lemma repeated_call_hits_cache_witness :
  let content := text_of_string "I love coding and technology" in
  let first := moderateContent 1000 1200 content (Fulfilled clean_response)
                 EMPTY_WORLD in
  let second := moderateContent 1300 1500 content (Rejected "offline") first.2 in
  remoteCalls second.2 = 1%nat /\ second.1 = first.1.
Proof.
  intros content first second.
  pose proof (repeated_call_hits_cache 1000 1200 1300 1500 content
    clean_response (Rejected "offline") EMPTY_WORLD eq_refl eq_refl eq_refl)
    as (_ & H2 & _ & H4 & _).
  split; [exact H2 | exact H4].
Defined.

(** ** C9: what a failed call does to the cache *)

(** C9 as stated fails: the lookup that opens the call evicts an expired
    entry of the text before the request is made, so a failed call can
    leave the cache changed. *)
Lemma failed_call_changes_cache_counterexample :
  let content := text_of_string "Aa" in
  let w := cacheModeration 0 content (result_of []) EMPTY_WORLD in
  let call := moderateContent 3600000 3600005 content (Rejected "timeout") w in
  call.1 = ERROR_DECISION
  /\ moderationCache call.2 <> moderationCache w.
Proof.
  split; [reflexivity|].
  intros E.
  apply (f_equal (fun m => m !! "moderation_1mo")) in E.
  vm_compute in E. discriminate E.
Qed.

(** C9, amended. When a call misses the cache and classification fails, the
    conservative decision is returned and the only change the call can have
    made to the cache is the eviction, by its own lookup, of an expired entry
    of the text: nothing is inserted or overwritten, the other keys are
    untouched, no entry is left under the key of the text, and the next call
    for the same text asks the classifier again. *)
Theorem failed_call_stores_nothing (now_lookup now_store : Z)
    (content : js_text) (remote : Outcome) (w : World) :
  (getCachedModeration now_lookup content w).1 = None ->
  classification_fails remote = true ->
  let key := getModerationCacheKey content in
  let call := moderateContent now_lookup now_store content remote w in
  call.1 = ERROR_DECISION
  /\ moderationCache call.2
     = moderationCache (getCachedModeration now_lookup content w).2
  /\ (forall k e, moderationCache call.2 !! k = Some e ->
        moderationCache w !! k = Some e)
  /\ (forall k, k <> key ->
        moderationCache call.2 !! k = moderationCache w !! k)
  /\ moderationCache call.2 !! key = None
  /\ forall t3 t4 remote',
       remoteCalls (moderateContent t3 t4 content remote' call.2).2
       = S (remoteCalls call.2).
Proof.
  intros Hmiss Hfail key call.
  set (w1 := (getCachedModeration now_lookup content w).2).
  assert (Hcall : call = (ERROR_DECISION,
            {| moderationCache := moderationCache w1;
               remoteCalls := S (remoteCalls w1) |})).
  { unfold call, moderateContent. rewrite (try_on_miss _ _ _ _ _ Hmiss).
    fold w1. simpl. unfold classification_fails in Hfail.
    destruct remote as [reason | response]; [reflexivity|].
    destruct (raw_results response) as [rs|]; [|reflexivity].
    destruct (map_results rs) as [e|us]; [reflexivity | discriminate]. }
  assert (Hw1 : moderationCache w1 = moderationCache w
                \/ moderationCache w1 = delete key (moderationCache w)).
  { unfold w1, getCachedModeration. fold key.
    destruct (moderationCache w !! key) as [e|]; [|now left].
    destruct (isCacheValid now_lookup (timestamp e)); [now left | now right]. }
  assert (Hnone : moderationCache w1 !! key = None).
  { revert Hmiss. unfold w1, getCachedModeration. fold key.
    destruct (moderationCache w !! key) as [e|] eqn:He;
      [|simpl; intros _; exact He].
    destruct (isCacheValid now_lookup (timestamp e)); simpl; [discriminate|].
    intros _. apply lookup_delete_eq. }
  rewrite Hcall. simpl.
  split; [reflexivity|]. split; [reflexivity|].
  split; [|split; [|split; [exact Hnone|]]].
  - intros k e. destruct Hw1 as [-> | ->]; [auto|].
    rewrite lookup_delete_Some. tauto.
  - intros k Hk. destruct Hw1 as [-> | ->]; [reflexivity|].
    now apply lookup_delete_ne.
  - intros t3 t4 remote'.
    set (w2 := {| moderationCache := moderationCache w1;
                  remoteCalls := S (remoteCalls w1) |}).
    assert (Hmiss' : (getCachedModeration t3 content w2).1 = None)
      by now rewrite (lookup_absent t3 content w2 Hnone).
    assert (Hsame : (getCachedModeration t3 content w2).2 = w2)
      by now rewrite (lookup_absent t3 content w2 Hnone).
    unfold moderateContent. rewrite (try_on_miss _ _ _ _ _ Hmiss'), Hsame.
    simpl.
    destruct remote' as [reason | response]; [reflexivity|].
    destruct (raw_results response) as [rs|]; [|reflexivity].
    destruct (map_results rs) as [e|us]; reflexivity.
Qed.

Lemma failed_call_stores_nothing_witness :
  let content := text_of_string "Aa" in
  let w := cacheModeration 0 content (result_of []) EMPTY_WORLD in
  let call := moderateContent 3600000 3600005 content (Rejected "timeout") w in
  call.1 = ERROR_DECISION
  /\ moderationCache call.2 !! getModerationCacheKey content = None.
Proof.
  intros content w call.
  pose proof (failed_call_stores_nothing 3600000 3600005 content
    (Rejected "timeout") w eq_refl eq_refl) as (H1 & _ & _ & _ & H5 & _).
  split; [exact H1 | exact H5].
Defined.

(** ** C7: malformed responses *)

Lemma prop_get_map {A} (f : string -> option A) (ks : list string) c :
  In c ks -> prop_get (map (fun k => (k, f k)) ks) c = f c.
Proof.
  induction ks as [|k ks IH]; simpl; [contradiction|].
  destruct (String.eqb_spec c k) as [-> | Hne]; [reflexivity|].
  intros [E | Hin]; [congruence | now apply IH].
Qed.

Lemma map_unit_fields r u :
  map_unit r = inr u ->
  exists fl cats scores,
    r = RawObject fl (Some cats) (Some scores)
    /\ flagged u = fl
    /\ categories u
       = map (fun c => (c, prop_get cats c)) MODERATION.CATEGORIES
    /\ category_scores u
       = map (fun c => (c, prop_get scores c)) MODERATION.CATEGORIES.
Proof.
  destruct r as [|fl [cats|] [scores|]]; simpl; try discriminate.
  intros E. inversion E; subst; clear E. simpl.
  exists fl, cats, scores. repeat split.
Qed.

(** A response of the minimal shape is mapped without exception to a
    well-formed result: the hypothesis of the evaluator's properties is what
    [moderateContent] hands to [analyzeModeration] for such responses. *)
Lemma map_unit_well_formed r :
  raw_unit_well_formed r = true ->
  exists u, map_unit r = inr u /\ well_formed_unit u = true.
Proof.
  destruct r as [|[b|] [cats|] [scores|]]; try discriminate.
  unfold raw_unit_well_formed. rewrite andb_true_iff, !forallb_forall.
  intros [Hc Hs]. eexists. split; [reflexivity|].
  change (well_formed_unit
            {| flagged := Some b;
               categories :=
                 map (fun c => (c, prop_get cats c)) MODERATION.CATEGORIES;
               category_scores :=
                 map (fun c => (c, prop_get scores c)) MODERATION.CATEGORIES |}
          = true).
  unfold well_formed_unit, category_score.
  cbn [flagged categories category_scores is_some andb].
  rewrite !andb_true_iff, !forallb_forall. repeat split.
  - intros e He. apply in_map_iff in He as (c & <- & Hin). now apply Hc.
  - intros c Hin. rewrite prop_get_map by assumption. now apply Hs.
Qed.

Lemma map_results_well_formed response rs :
  raw_results response = Some rs ->
  raw_well_formed response = true ->
  exists us, map_results rs = inr us
    /\ well_formed {| id := raw_id response; model := raw_model response;
                      results := us |} = true.
Proof.
  unfold raw_well_formed, well_formed. intros -> H. simpl.
  induction rs as [|r rs IH]; simpl in *.
  - exists []. split; reflexivity.
  - apply andb_true_iff in H as [Hr Hrs].
    destruct (map_unit_well_formed r Hr) as (u & -> & Hu).
    destruct (IH Hrs) as (us & -> & Hus).
    exists (u :: us). split; [reflexivity|]. simpl. now rewrite Hu, Hus.
Qed.

(** C7 as stated fails: a response that lacks flags and scores raises
    nothing; it is evaluated on the fields it has, and here allowed. *)
Lemma malformed_response_raises_counterexample :
  let call := moderateContent_try 10 20 (text_of_string "Aa")
                (Fulfilled partial_response) EMPTY_WORLD in
  raw_well_formed partial_response = false
  /\ (forall e, call.1 <> inl e)
  /\ exists d, call.1 = inr d /\ isAllowed d = true.
Proof.
  split; [reflexivity|]. split.
  - intros e. vm_compute. discriminate.
  - eexists. split; reflexivity.
Qed.

Lemma map_results_unreadable rs :
  existsb unit_unreadable rs = true -> map_results rs = inl TypeError.
Proof.
  induction rs as [|u rs IH]; simpl; [discriminate|].
  destruct u as [|fl [cats|] [scores|]]; simpl; try reflexivity.
  intros H. now rewrite (IH H).
Qed.

Lemma map_results_readable rs :
  existsb unit_unreadable rs = false ->
  exists us, map_results rs = inr us
    /\ Forall2 (fun r u => map_unit r = inr u) rs us.
Proof.
  induction rs as [|u rs IH]; simpl.
  - intros _. exists []. split; [reflexivity | constructor].
  - destruct u as [|fl [cats|] [scores|]]; simpl; try discriminate.
    intros H. destruct (IH H) as (us & -> & Hall).
    eexists. split; [reflexivity|]. constructor; [reflexivity | exact Hall].
Qed.

(** The running maximum skips what is missing or not a number, never falls
    below where it starts, and bounds every score that is a number. *)
Lemma max_step_skips_missing (l : list (option float)) (m0 : float) :
  PrimFloat.leb m0 m0 = true ->
  PrimFloat.leb m0 (fold_left max_step l m0) = true
  /\ (forall s, In (Some s) l -> PrimFloat.leb s s = true ->
                PrimFloat.leb s (fold_left max_step l m0) = true)
  /\ (fold_left max_step l m0 = m0 \/ In (Some (fold_left max_step l m0)) l).
Proof.
  revert m0. induction l as [|o l IH]; intros m0 Hm0.
  - repeat split; [exact Hm0 | contradiction | now left].
  - rewrite fold_left_cons.
    assert (Hstep : PrimFloat.leb m0 (max_step m0 o) = true
                    /\ (max_step m0 o = m0 \/ Some (max_step m0 o) = o)
                    /\ forall s, o = Some s -> PrimFloat.leb s s = true ->
                                 PrimFloat.leb s (max_step m0 o) = true).
    { unfold max_step. destruct o as [s|]; simpl.
      - destruct (PrimFloat.ltb m0 s) eqn:Hlt.
        + pose proof (flt_fle _ _ Hlt) as Hle. repeat split; auto.
          intros s' E _. inversion E; subst. eapply fle_refl_r, Hle.
        + repeat split; auto.
          intros s' E Hs. inversion E; subst. now apply fle_total.
      - repeat split; auto. discriminate. }
    destruct Hstep as (Hle & Hatt & Hub).
    destruct (IH (max_step m0 o) (fle_refl_r _ _ Hle)) as (H1 & H2 & H3).
    split; [exact (fle_trans _ _ _ Hle H1)|]. split.
    + intros s [E | Hin] Hs; [|now apply H2].
      exact (fle_trans _ _ _ (Hub s E Hs) H1).
    + destruct H3 as [E | Hin]; [|right; now right].
      rewrite E. destruct Hatt as [E' | E']; [now left | right; now left].
Qed.

(** A mapped unit carries what the raw unit carries, and nothing else. *)
Lemma mapped_entries (cats : list (string * option bool))
    (scores mapped : list (string * option float)) (l : list string) :
  (forall c, In c l -> prop_get mapped c = prop_get scores c) ->
  map fst (List.filter (entry_violates mapped)
             (map (fun c => (c, prop_get cats c)) l))
  = List.filter (fun c => truthy (prop_get cats c)
                          || js_ge (prop_get scores c) (threshold_of c)) l
  /\ map (fun e => prop_get mapped e.1) (map (fun c => (c, prop_get cats c)) l)
     = map (prop_get scores) l.
Proof.
  induction l as [|c l IH]; intros H; [split; reflexivity|].
  destruct IH as [IH1 IH2]; [intros c' Hc'; apply H; now right|].
  simpl. unfold entry_violates at 1. simpl.
  rewrite (H c) by now left. split.
  - destruct (truthy (prop_get cats c)
              || js_ge (prop_get scores c) (threshold_of c)); simpl;
      now rewrite IH1.
  - now rewrite IH2.
Qed.

Lemma map_unit_reading r u :
  map_unit r = inr u ->
  unit_violations u = raw_unit_violations r
  /\ map (fun e => category_score u e.1) (categories u) = raw_unit_scores r
  /\ truthy (flagged u) = raw_unit_flagged r.
Proof.
  intros Hu.
  destruct (map_unit_fields r u Hu) as (fl & cats & scores & -> & Hf & Hc & Hs).
  unfold unit_violations, category_score, raw_unit_violations,
    raw_unit_scores, raw_unit_flagged.
  rewrite Hc, Hs, Hf. cbv beta iota.
  destruct (mapped_entries cats scores
              (map (fun c => (c, prop_get scores c)) MODERATION.CATEGORIES)
              MODERATION.CATEGORIES) as [H1 H2].
  - intros c Hin. now apply prop_get_map.
  - repeat split; assumption.
Qed.

Lemma map_results_reading rs us :
  Forall2 (fun r u => map_unit r = inr u) rs us ->
  flat_map unit_violations us = flat_map raw_unit_violations rs
  /\ flat_map (fun u => map (fun e => category_score u e.1) (categories u)) us
     = flat_map raw_unit_scores rs
  /\ existsb (fun u => truthy (flagged u)) us = existsb raw_unit_flagged rs.
Proof.
  induction 1 as [|r u rs us Hu _ (IH1 & IH2 & IH3)]; [repeat split|].
  destruct (map_unit_reading r u Hu) as (H1 & H2 & H3). simpl.
  now rewrite IH1, IH2, IH3, H1, H2, H3.
Qed.

Lemma raw_unit_violations_In r c :
  In c (raw_unit_violations r) <->
  In c MODERATION.CATEGORIES
  /\ exists fl cats scores,
       r = RawObject fl (Some cats) (Some scores)
       /\ (prop_get cats c = Some true
           \/ exists s, prop_get scores c = Some s
                        /\ PrimFloat.leb (threshold_of c) s = true).
Proof.
  assert (Ht : forall o, truthy o = true <-> o = Some true).
  { intros [[]|]; simpl; split; congruence. }
  assert (Hg : forall o t, js_ge o t = true <->
                 exists s, o = Some s /\ PrimFloat.leb t s = true).
  { intros [s|] t; simpl; split.
    - eauto.
    - now intros (s' & E & H); inversion E; subst.
    - discriminate.
    - intros (s' & E & _). discriminate. }
  destruct r as [|fl [cats|] [scores|]]; unfold raw_unit_violations;
    try (split; [contradiction | intros (_ & ? & ? & ? & E & _); discriminate]).
  rewrite filter_In, orb_true_iff, Ht, Hg. split.
  - intros [Hc H]. split; [exact Hc|]. exists fl, cats, scores. auto.
  - intros (Hc & fl' & cats' & scores' & E & H). inversion E; subst. auto.
Qed.

(** C7, amended. No shape validation takes place and nothing is raised past
    [moderateContent] for a malformed response. On a cache miss: when the
    results are not an array, or a unit is [null] or has no [categories] or
    [category_scores] object, the mapping raises a [TypeError] that the
    [catch] block turns into the conservative decision; otherwise nothing is
    raised and the response is evaluated on the fields it has, every unit
    reduced to the eleven categories in their fixed order: a category is
    flagged exactly when some unit carries the flag [true] for it or a score
    at or above its threshold (so a missing flag counts as not flagged and a
    missing score never reaches a threshold), in first-seen order; the
    content is allowed exactly when no category is flagged and no unit
    carries an overall [flagged] that is [true]; and the confidence score is
    0 or a score that is present, at least every score that is a number. *)
Theorem malformed_response_handling (now_lookup now_store : Z)
    (content : js_text) (response : RawResponse) (w : World) :
  raw_well_formed response = false ->
  (getCachedModeration now_lookup content w).1 = None ->
  let attempt :=
    (moderateContent_try now_lookup now_store content (Fulfilled response) w).1 in
  let d :=
    (moderateContent now_lookup now_store content (Fulfilled response) w).1 in
  (unreadable response = true ->
     attempt = inl TypeError /\ d = ERROR_DECISION)
  /\ (unreadable response = false ->
      exists rs us,
        raw_results response = Some rs
        /\ Forall2 (fun r u => map_unit r = inr u) rs us
        /\ attempt = inr d
        /\ d = analyzeModeration
                 {| id := raw_id response; model := raw_model response;
                    results := us |}
        /\ Forall (fun u =>
             map fst (categories u) = MODERATION.CATEGORIES
             /\ forall c, prop_get (categories u) c = None ->
                          category_score u c = None ->
                          violates u c = false) us
        /\ flaggedCategories d = first_seen (flat_map raw_unit_violations rs)
        /\ (forall c,
              In c (flaggedCategories d) <->
              In c MODERATION.CATEGORIES
              /\ exists fl cats scores,
                   In (RawObject fl (Some cats) (Some scores)) rs
                   /\ (prop_get cats c = Some true
                       \/ exists s, prop_get scores c = Some s
                            /\ PrimFloat.leb (threshold_of c) s = true))
        /\ (isAllowed d = true <->
            flaggedCategories d = []
            /\ forall fl cats scores,
                 In (RawObject fl cats scores) rs -> fl <> Some true)
        /\ PrimFloat.leb 0%float (confidenceScore d) = true
        /\ (confidenceScore d = 0%float
            \/ exists fl cats scores c,
                 In (RawObject fl (Some cats) (Some scores)) rs
                 /\ In c MODERATION.CATEGORIES
                 /\ prop_get scores c = Some (confidenceScore d))
        /\ (forall fl cats scores c s,
              In (RawObject fl (Some cats) (Some scores)) rs ->
              In c MODERATION.CATEGORIES ->
              prop_get scores c = Some s ->
              PrimFloat.leb s s = true ->
              PrimFloat.leb s (confidenceScore d) = true)).
Proof.
  intros _ Hmiss attempt d.
  assert (Htry : moderateContent_try now_lookup now_store content
                   (Fulfilled response) w
                 = let w2 := {| moderationCache :=
                                  moderationCache
                                    (getCachedModeration now_lookup content w).2;
                                remoteCalls :=
                                  S (remoteCalls
                                       (getCachedModeration now_lookup content w).2) |} in
                   match raw_results response with
                   | None => (inl TypeError, w2)
                   | Some rs =>
                       match map_results rs with
                       | inl e => (inl e, w2)
                       | inr us =>
                           (inr (analyzeModeration
                                   {| id := raw_id response;
                                      model := raw_model response;
                                      results := us |}),
                            cacheModeration now_store content
                              {| id := raw_id response;
                                 model := raw_model response;
                                 results := us |} w2)
                       end
                   end)
    by (rewrite (try_on_miss _ _ _ _ _ Hmiss); reflexivity).
  unfold unreadable.
  destruct (raw_results response) as [rs|] eqn:Hrs.
  2:{ split; [|discriminate]. intros _. unfold attempt, d, moderateContent.
      rewrite Htry. split; reflexivity. }
  split; intros H.
  { unfold attempt, d, moderateContent. rewrite Htry. cbv zeta.
    rewrite (map_results_unreadable rs H). split; reflexivity. }
  destruct (map_results_readable rs H) as (us & E & Hall).
  set (mr := {| id := raw_id response; model := raw_model response;
                results := us |}).
  assert (Ha : attempt = inr (analyzeModeration mr))
    by (unfold attempt; rewrite Htry; cbv zeta; rewrite E; reflexivity).
  assert (Hd : d = analyzeModeration mr)
    by (unfold d, moderateContent; rewrite Htry; cbv zeta; rewrite E;
        reflexivity).
  clearbody attempt d. subst attempt d. exists rs, us.
  destruct (map_results_reading rs us Hall) as (Hv & Hsc & Hfl).
  assert (Hflag : flaggedCategories (analyzeModeration mr)
                  = first_seen (flat_map raw_unit_violations rs)).
  { unfold analyzeModeration. simpl. now rewrite analyze_flagged, Hv. }
  assert (Hconf : confidenceScore (analyzeModeration mr)
                  = fold_left max_step (flat_map raw_unit_scores rs) 0%float).
  { rewrite analyze_confidence. unfold observed_scores. simpl. now rewrite Hsc. }
  assert (Hscore : forall o, In o (flat_map raw_unit_scores rs) <->
            exists fl cats scores c,
              In (RawObject fl (Some cats) (Some scores)) rs
              /\ In c MODERATION.CATEGORIES /\ prop_get scores c = o).
  { intros o. rewrite in_flat_map. split.
    - intros (r & Hr & Ho). destruct r as [|fl [cats|] [scores|]];
        unfold raw_unit_scores in Ho; try contradiction.
      apply in_map_iff in Ho as (c & <- & Hc). eauto 10.
    - intros (fl & cats & scores & c & Hr & Hc & <-).
      eexists. split; [exact Hr|]. unfold raw_unit_scores. now apply in_map. }
  destruct (max_step_skips_missing (flat_map raw_unit_scores rs) 0%float eq_refl)
    as (H0 & Hub & Hatt).
  rewrite <- Hconf in H0, Hub, Hatt.
  split; [reflexivity|]. split; [exact Hall|]. split; [reflexivity|].
  split; [reflexivity|]. split; [|split; [exact Hflag|split; [|split; [|split;
    [exact H0|split]]]]].
  - clear -Hall. induction Hall as [|r u rs us Hu _ IH]; constructor; [|exact IH].
    destruct (map_unit_fields r u Hu) as (fl & cats & scores & _ & _ & Hc & _).
    split.
    + rewrite Hc. reflexivity.
    + intros c Hf Hs. unfold violates, category_flag. now rewrite Hf, Hs.
  - intros c. rewrite Hflag, first_seen_In, in_flat_map. split.
    + intros (r & Hr & Hc). apply raw_unit_violations_In in Hc
        as (Hc & fl & cats & scores & -> & Hv'). eauto 10.
    + intros (Hc & fl & cats & scores & Hr & Hv').
      eexists. split; [exact Hr|]. apply raw_unit_violations_In.
      split; [exact Hc|]. eauto 10.
  - rewrite analyze_isAllowed. unfold mr at 1. cbn [results].
    rewrite Hfl, andb_true_iff, negb_true_iff. split.
    + intros [Hex Hnil]. split.
      * destruct (flaggedCategories (analyzeModeration mr));
          [reflexivity | discriminate].
      * intros fl cats scores Hr ->.
        apply not_true_iff_false in Hex. apply Hex, existsb_exists.
        eexists. split; [exact Hr | reflexivity].
    + intros [Hnil Hno]. rewrite Hnil. split; [|reflexivity].
      apply not_true_iff_false. intros Hex.
      apply existsb_exists in Hex as ([|fl cats scores] & Hr & Ht);
        [discriminate|].
      apply (Hno fl cats scores Hr). simpl in Ht.
      destruct fl as [[]|]; [reflexivity | discriminate | discriminate].
  - destruct Hatt as [E' | Hin]; [now left | right].
    now apply Hscore in Hin.
  - intros fl cats scores c s Hr Hc Hs Hnum. apply Hub; [|exact Hnum].
    apply Hscore. eauto 10.
Qed.

Lemma malformed_response_handling_witness :
  (moderateContent 10 20 (text_of_string "Aa")
     (Fulfilled {| raw_id := "modr-3"; raw_model := "omni-moderation-latest";
                   raw_results := None |}) EMPTY_WORLD).1 = ERROR_DECISION
  /\ flaggedCategories
       (moderateContent 10 20 (text_of_string "Aa")
          (Fulfilled flagless_response) EMPTY_WORLD).1 = ["harassment"].
Proof.
  split.
  - exact (proj2 (proj1 (malformed_response_handling 10 20 (text_of_string "Aa")
      {| raw_id := "modr-3"; raw_model := "omni-moderation-latest";
         raw_results := None |} EMPTY_WORLD eq_refl eq_refl) eq_refl)).
  - destruct (proj2 (malformed_response_handling 10 20 (text_of_string "Aa")
      flagless_response EMPTY_WORLD eq_refl eq_refl) eq_refl)
      as (rs & us & Hrs & _ & _ & _ & _ & Hflag & _).
    rewrite Hflag. inversion Hrs; subst. reflexivity.
Defined.

(** ** C8: the feedback text *)

Example feedback_allowed :
  formatModerationFeedback [] true = "Content passed moderation checks.".
Proof. reflexivity. Qed.

Example feedback_generic :
  formatModerationFeedback [] false = "Content flagged by moderation system.".
Proof. reflexivity. Qed.

Example feedback_two :
  formatModerationFeedback ["hate"; "harassment"] false
  = "Content flagged for: Hate Speech, Harassment. Please revise your post.".
Proof. reflexivity. Qed.

Example feedback_unknown :
  formatModerationFeedback ["unknown-category"] false
  = "Content flagged for: unknown-category. Please revise your post.".
Proof. reflexivity. Qed.

Example feedback_empty_name :
  formatModerationFeedback [""] false
  = "Content flagged for: . Please revise your post.".
Proof. reflexivity. Qed.

Example display_names_of_the_categories :
  map getCategoryDisplayName MODERATION.CATEGORIES
  = map JsString
      [ "Hate Speech"; "Threatening Hate Speech"; "Harassment";
        "Threatening Harassment"; "Self-Harm"; "Self-Harm Intent";
        "Self-Harm Instructions"; "Sexual Content";
        "Sexual Content Involving Minors"; "Violence"; "Graphic Violence" ].
Proof. reflexivity. Qed.

Lemma display_name_known category name :
  assoc displayNames category = Some name ->
  getCategoryDisplayName category = JsString name.
Proof.
  unfold getCategoryDisplayName. intros H. rewrite H.
  assert (Hne : forall k v, assoc displayNames k = Some v -> v <> "").
  { intros k v. unfold displayNames, assoc.
    repeat (destruct (String.eqb k _);
            [intros E; inversion E; subst; discriminate|]).
    discriminate. }
  destruct (String.eqb_spec name "") as [E|_]; [|reflexivity].
  exfalso. exact (Hne category name H E).
Qed.

(** Away from the names that [Object.prototype] defines, the formatter is
    the function the specification describes. *)
Lemma feedback_outside_prototype (cats : list string) (allowed : bool) :
  (forall c, In c cats -> assoc object_prototype c = None) ->
  formatModerationFeedback cats allowed = feedback_of cats allowed.
Proof.
  intros H. unfold formatModerationFeedback, feedback_of.
  destruct allowed; [reflexivity|].
  destruct cats as [|c cats]; [reflexivity|].
  change (length (c :: cats) =? 0)%nat with false. cbv iota.
  rewrite map_map.
  assert (E : map (fun x => js_to_string (getCategoryDisplayName x)) (c :: cats)
              = map display_name_or_verbatim (c :: cats)).
  { apply map_ext_in. intros x Hx. unfold display_name_or_verbatim.
    destruct (assoc displayNames x) as [name|] eqn:E.
    - now rewrite (display_name_known x name E).
    - unfold getCategoryDisplayName. now rewrite E, (H x Hx). }
  now rewrite E.
Qed.

(** C8 at the input where the code departs from it: "constructor" is not one
    of the eleven categories, yet it is not passed through verbatim, because
    the lookup in the object literal finds [Object.prototype.constructor]. *)
Theorem feedback_inherited_name :
  getCategoryDisplayName "constructor"
  = JsBuiltin "function Object() { [native code] }"
  /\ formatModerationFeedback ["constructor"] false
     = "Content flagged for: function Object() { [native code] }. Please revise your post."
  /\ formatModerationFeedback ["constructor"] false
     <> feedback_of ["constructor"] false
  /\ feedback_of ["constructor"] false
     = "Content flagged for: constructor. Please revise your post.".
Proof. repeat split. discriminate. Qed.

(** * Further properties of the module *)

(** ** The sweep *)

Lemma expired_spec now e : expired now e = true <-> now - timestamp e >= TTL_MS.
Proof. unfold expired. rewrite Z.leb_le. lia. Qed.

Lemma expired_false now e : expired now e = false <-> now - timestamp e < TTL_MS.
Proof. unfold expired. rewrite Z.leb_gt. lia. Qed.

Lemma sweep_fold_lookup now (l : list (string * CacheEntry))
    (m : gmap string CacheEntry) (k : string) :
  fold_left
    (fun cache entry =>
       let '(key, value) := entry in
       if now - timestamp value >=? MODERATION.CACHE_TTL_HOURS * 60 * 60 * 1000
       then delete key cache else cache) l m !! k
  = if existsb (fun entry => String.eqb k entry.1 && expired now entry.2) l
    then None else m !! k.
Proof.
  revert m. induction l as [|[k' v] l IH]; intros m; [reflexivity|].
  rewrite fold_left_cons, IH. simpl.
  change (MODERATION.CACHE_TTL_HOURS * 60 * 60 * 1000) with TTL_MS.
  rewrite Z.geb_leb. fold (expired now v).
  destruct (existsb _ l); [now rewrite orb_true_r|]. rewrite orb_false_r.
  destruct (expired now v); [|now rewrite andb_false_r].
  rewrite andb_true_r.
  destruct (String.eqb_spec k k') as [-> | Hne].
  - apply lookup_delete_eq.
  - apply lookup_delete_ne. congruence.
Qed.

Lemma sweep_lookup now w k :
  moderationCache (cleanupModerationCache now w) !! k
  = match moderationCache w !! k with
    | Some e => if expired now e then None else Some e
    | None => None
    end.
Proof.
  unfold cleanupModerationCache. simpl. rewrite sweep_fold_lookup.
  destruct (existsb _ _) eqn:Hex.
  - apply existsb_exists in Hex as ([k' v] & Hin & Hc). simpl in Hc.
    apply andb_true_iff in Hc as [Hk Hv]. apply String.eqb_eq in Hk. subst k'.
    apply list_elem_of_In, elem_of_map_to_list in Hin. now rewrite Hin, Hv.
  - destruct (moderationCache w !! k) as [e|] eqn:He; [|reflexivity].
    destruct (expired now e) eqn:Hv; [|reflexivity]. exfalso.
    apply not_true_iff_false in Hex. apply Hex, existsb_exists.
    exists (k, e). split.
    + now apply list_elem_of_In, elem_of_map_to_list.
    + simpl. now rewrite String.eqb_refl, Hv.
Qed.

Lemma sweep_calls now w :
  remoteCalls (cleanupModerationCache now w) = remoteCalls w.
Proof. reflexivity. Qed.

(** The sweep leaves exactly the entries younger than one hour, each as it
    was; it never adds an entry or asks the classifier, and repeating it at
    the same instant changes nothing more. *)
Theorem sweep_keeps_exactly_fresh (now : Z) (w : World) :
  (forall k e,
     moderationCache (cleanupModerationCache now w) !! k = Some e <->
     moderationCache w !! k = Some e /\ now - timestamp e < 3600000)
  /\ moderationCache (cleanupModerationCache now w) ⊆ moderationCache w
  /\ remoteCalls (cleanupModerationCache now w) = remoteCalls w
  /\ cleanupModerationCache now (cleanupModerationCache now w)
     = cleanupModerationCache now w.
Proof.
  assert (Hiff : forall k e,
     moderationCache (cleanupModerationCache now w) !! k = Some e <->
     moderationCache w !! k = Some e /\ now - timestamp e < TTL_MS).
  { intros k e. rewrite sweep_lookup.
    destruct (moderationCache w !! k) as [e'|].
    - destruct (expired now e') eqn:Hv.
      + apply expired_spec in Hv. split; [discriminate|].
        intros [E Hlt]. inversion E; subst. lia.
      + apply expired_false in Hv. split.
        * intros E. inversion E; subst. auto.
        * now intros [E _].
    - split; [discriminate | now intros [E _]]. }
  split; [exact Hiff|]. split; [|split; [reflexivity|]].
  - apply map_subseteq_spec. intros k e He. now apply Hiff in He.
  - unfold cleanupModerationCache at 1 3. unfold set_cache. simpl. f_equal.
    apply map_eq. intros k.
    change (fold_left _ (map_to_list (moderationCache (cleanupModerationCache now w)))
              (moderationCache (cleanupModerationCache now w)) !! k)
      with (moderationCache (cleanupModerationCache now
              (cleanupModerationCache now w)) !! k).
    change (fold_left _ (map_to_list (moderationCache w)) (moderationCache w) !! k)
      with (moderationCache (cleanupModerationCache now w) !! k).
    rewrite (sweep_lookup now (cleanupModerationCache now w)).
    destruct (moderationCache (cleanupModerationCache now w) !! k) as [e|] eqn:He;
      [|reflexivity].
    apply Hiff in He as [_ Hlt]. apply expired_false in Hlt. now rewrite Hlt.
Qed.

Lemma sweep_then_lookup now now' content w :
  now <= now' ->
  (getCachedModeration now' content (cleanupModerationCache now w)).1
  = (getCachedModeration now' content w).1.
Proof.
  intros Hle. unfold getCachedModeration. rewrite sweep_lookup.
  destruct (moderationCache w !! getModerationCacheKey content) as [e|];
    [|reflexivity].
  destruct (expired now e) eqn:Hv.
  - apply expired_spec in Hv.
    assert (Hv' : isCacheValid now' (timestamp e) = false)
      by (apply isCacheValid_false; lia).
    now rewrite Hv'.
  - now destruct (isCacheValid now' (timestamp e)).
Qed.

Lemma decision_of_lookup t t' content remote w w' :
  (getCachedModeration t content w).1 = (getCachedModeration t content w').1 ->
  remoteCalls w = remoteCalls w' ->
  (moderateContent t t' content remote w).1
  = (moderateContent t t' content remote w').1
  /\ remoteCalls (moderateContent t t' content remote w).2
     = remoteCalls (moderateContent t t' content remote w').2.
Proof.
  intros Hfound Hcalls. unfold moderateContent.
  pose proof (lookup_makes_no_call t content w) as C1.
  pose proof (lookup_makes_no_call t content w') as C2.
  destruct (getCachedModeration t content w).1 as [r|] eqn:E.
  - rewrite (try_on_hit _ _ _ _ _ _ E).
    rewrite (try_on_hit t t' content remote w' r) by now rewrite <- Hfound.
    simpl. split; [reflexivity | congruence].
  - rewrite (try_on_miss _ _ _ _ _ E).
    rewrite (try_on_miss t t' content remote w') by now rewrite <- Hfound.
    simpl. destruct remote as [reason | response]; simpl;
      [split; [reflexivity | congruence]|].
    destruct (raw_results response) as [rs|]; simpl;
      [|split; [reflexivity | congruence]].
    destruct (map_results rs) as [e|us]; simpl;
      split; try reflexivity; congruence.
Qed.

(** A sweep is invisible to later calls: when the clock does not run
    backwards, a lookup or a call of [moderateContent] after a sweep finds,
    decides and requests exactly what it would have without the sweep. *)
Theorem sweep_is_transparent (now t t' : Z) (content : js_text)
    (remote : Outcome) (w : World) :
  now <= t ->
  let swept := cleanupModerationCache now w in
  (getCachedModeration t content swept).1 = (getCachedModeration t content w).1
  /\ (moderateContent t t' content remote swept).1
     = (moderateContent t t' content remote w).1
  /\ remoteCalls (moderateContent t t' content remote swept).2
     = remoteCalls (moderateContent t t' content remote w).2.
Proof.
  intros Hle swept.
  pose proof (sweep_then_lookup now t content w Hle) as Hfound.
  split; [exact Hfound|].
  apply decision_of_lookup; [exact Hfound | reflexivity].
Qed.

Lemma sweep_is_transparent_witness :
  let w := cacheModeration 0 (text_of_string "Aa") (result_of [])
             (cacheModeration 500 (text_of_string "blotato")
                (result_of [unit_of true ["hate"] []]) EMPTY_WORLD) in
  let swept := cleanupModerationCache 3600100 w in
  (moderateContent 3600200 3600300 (text_of_string "blotato")
     (Rejected "offline") swept).1
  = (moderateContent 3600200 3600300 (text_of_string "blotato")
       (Rejected "offline") w).1.
Proof.
  intros w swept.
  refine (proj1 (proj2 (sweep_is_transparent 3600100 3600200 3600300
    (text_of_string "blotato") (Rejected "offline") w _))).
  discriminate.
Defined.

(** ** What a call does, case by case *)

(** Every call asks the classifier at most once: never on a hit, where the
    cached result decides and the state is left as it is, and exactly once
    on a miss. *)
Theorem call_accounting (t t' : Z) (content : js_text) (remote : Outcome)
    (w : World) :
  let found := (getCachedModeration t content w).1 in
  let call := moderateContent t t' content remote w in
  (forall r, found = Some r -> call.1 = analyzeModeration r /\ call.2 = w)
  /\ (found = None -> remoteCalls call.2 = S (remoteCalls w))
  /\ (remoteCalls w <= remoteCalls call.2 <= S (remoteCalls w))%nat.
Proof.
  intros found call.
  assert (Hhit : forall r, found = Some r ->
            call.1 = analyzeModeration r /\ call.2 = w).
  { intros r Hr. unfold call, moderateContent.
    rewrite (try_on_hit _ _ _ _ _ _ Hr). simpl. split; [reflexivity|].
    apply lookup_found in Hr as (e & He & Hlt & _).
    now rewrite (lookup_hit t content w e He Hlt). }
  assert (Hmiss : found = None -> remoteCalls call.2 = S (remoteCalls w)).
  { intros Hn. unfold call, moderateContent.
    rewrite (try_on_miss _ _ _ _ _ Hn). simpl.
    rewrite <- (lookup_makes_no_call t content w).
    destruct remote as [reason | response]; [reflexivity|].
    destruct (raw_results response) as [rs|]; [|reflexivity].
    destruct (map_results rs) as [e|us]; reflexivity. }
  split; [exact Hhit|]. split; [exact Hmiss|].
  destruct found as [r|] eqn:E.
  - destruct (Hhit r eq_refl) as [_ ->]. lia.
  - rewrite (Hmiss eq_refl). lia.
Qed.

(** When the cache holds no entry for the text, or only one that has reached
    one hour, a successful classification is written through: the key of the
    text then holds the freshly mapped result, stamped with the time of the
    store, every other key is untouched, one request was made, and the
    decision is the analysis of what was stored. *)
Theorem fresh_result_is_written_through (t t' : Z) (content : js_text)
    (response : RawResponse) (w : World) :
  (forall e, moderationCache w !! getModerationCacheKey content = Some e ->
             t - timestamp e >= 3600000) ->
  classification_fails (Fulfilled response) = false ->
  let call := moderateContent t t' content (Fulfilled response) w in
  let stored := moderationResult call.1 in
  moderationCache call.2
  = <[getModerationCacheKey content := {| result := stored; timestamp := t' |}]>
      (moderationCache w)
  /\ call.1 = analyzeModeration stored
  /\ id stored = raw_id response /\ model stored = raw_model response
  /\ (exists rs, raw_results response = Some rs
                 /\ map_results rs = inr (results stored))
  /\ remoteCalls call.2 = S (remoteCalls w).
Proof.
  intros Hstale Hok call stored. subst stored.
  assert (Hmiss : (getCachedModeration t content w).1 = None).
  { destruct (getCachedModeration t content w).1 as [r|] eqn:E; [|reflexivity].
    apply lookup_found in E as (e & He & Hlt & _).
    specialize (Hstale e He). unfold TTL_MS in Hlt. lia. }
  assert (Hcache : <[getModerationCacheKey content :=
                       {| result := moderationResult call.1; timestamp := t' |}]>
                     (moderationCache (getCachedModeration t content w).2)
                   = <[getModerationCacheKey content :=
                       {| result := moderationResult call.1; timestamp := t' |}]>
                     (moderationCache w)).
  { destruct (moderationCache w !! getModerationCacheKey content) as [e|] eqn:He.
    - rewrite (lookup_expired t content w e He (Hstale e eq_refl)). simpl.
      apply insert_delete_eq.
    - now rewrite (lookup_absent t content w He). }
  revert Hcache. unfold call, moderateContent.
  rewrite (try_on_miss _ _ _ _ _ Hmiss).
  unfold classification_fails in Hok.
  destruct (raw_results response) as [rs|] eqn:Hrs; [|discriminate].
  destruct (map_results rs) as [e|us] eqn:Hus; [discriminate|].
  simpl. intros Hcache. rewrite Hcache.
  repeat split; try reflexivity.
  - exists rs. split; [reflexivity | exact Hus].
  - now rewrite (lookup_makes_no_call t content w).
Qed.

Lemma fresh_result_is_written_through_witness :
  let content := text_of_string "I love coding and technology" in
  let w := cacheModeration 0 content (result_of [unit_of true [] []])
             EMPTY_WORLD in
  let call := moderateContent 3600000 3600400 content
                (Fulfilled clean_response) w in
  isAllowed call.1 = true /\ remoteCalls call.2 = 1%nat.
Proof.
  intros content w call.
  assert (H : forall e,
    moderationCache w !! getModerationCacheKey content = Some e ->
    3600000 - timestamp e >= 3600000).
  { intros e He. unfold w, cacheModeration in He. simpl in He.
    rewrite lookup_insert_eq in He. inversion He; subst. simpl. lia. }
  pose proof (fresh_result_is_written_through 3600000 3600400 content
    clean_response w H eq_refl) as (_ & _ & _ & _ & _ & Hcalls).
  split; [reflexivity | exact Hcalls].
Defined.

(** ** What the cache holds, and what decisions can list *)

Lemma map_results_mapped rs us :
  map_results rs = inr us -> Forall mapped_unit us.
Proof.
  revert us. induction rs as [|r rs IH]; simpl; intros us E.
  - inversion E. constructor.
  - destruct (map_unit r) as [e|u] eqn:Hu; [discriminate|].
    destruct (map_results rs) as [e|us']; [discriminate|].
    inversion E; subst. constructor; [|now apply IH].
    destruct (map_unit_fields r u Hu) as (fl & cats & scores & _ & _ & Hc & Hs).
    split; [rewrite Hc | rewrite Hs]; rewrite map_map; apply map_id.
Qed.

Lemma flagged_among_keys r c :
  In c (flaggedCategories (analyzeModeration r)) ->
  exists u, In u (results r) /\ In c (map fst (categories u)).
Proof.
  unfold analyzeModeration. simpl. rewrite analyze_flagged, first_seen_In.
  rewrite in_flat_map. intros (u & Hu & Hc). exists u. split; [assumption|].
  unfold unit_violations in Hc. apply in_map_iff in Hc as (e & <- & He).
  apply filter_In in He as [He _]. now apply in_map.
Qed.

Lemma flagged_NoDup r : NoDup (flaggedCategories (analyzeModeration r)).
Proof.
  unfold analyzeModeration. simpl. rewrite analyze_flagged.
  apply first_seen_NoDup.
Qed.

Lemma lookup_cache_shrinks t content w k e :
  moderationCache (getCachedModeration t content w).2 !! k = Some e ->
  moderationCache w !! k = Some e.
Proof.
  unfold getCachedModeration.
  destruct (moderationCache w !! getModerationCacheKey content) as [e'|];
    [|auto].
  destruct (isCacheValid t (timestamp e')); simpl; [auto|].
  rewrite lookup_delete_Some. tauto.
Qed.

(** The shape of every answer of [moderateContent]: the conservative
    decision, or the analysis of a result whose units were built by the
    mapping, now or when it was cached. *)
Lemma call_decision_mapped t t' content remote w :
  cache_mapped w ->
  let call := moderateContent t t' content remote w in
  cache_mapped call.2
  /\ (call.1 = ERROR_DECISION
      \/ exists r, call.1 = analyzeModeration r
                   /\ Forall mapped_unit (results r)).
Proof.
  intros Hinv call. subst call. unfold moderateContent.
  assert (Hinv1 : cache_mapped (getCachedModeration t content w).2).
  { intros k e He. apply (Hinv k e). eapply lookup_cache_shrinks, He. }
  destruct (getCachedModeration t content w).1 as [r|] eqn:E.
  - rewrite (try_on_hit _ _ _ _ _ _ E). simpl. split; [exact Hinv1|].
    right. exists r. split; [reflexivity|].
    apply lookup_found in E as (e & He & _ & ->). exact (Hinv _ e He).
  - rewrite (try_on_miss _ _ _ _ _ E). simpl.
    destruct remote as [reason | response]; simpl; [split; [exact Hinv1 | now left]|].
    destruct (raw_results response) as [rs|]; simpl;
      [|split; [exact Hinv1 | now left]].
    destruct (map_results rs) as [e|us] eqn:Hus; simpl;
      [split; [exact Hinv1 | now left]|].
    pose proof (map_results_mapped rs us Hus) as Hm. split.
    + intros k e. unfold cacheModeration. simpl.
      rewrite lookup_insert_Some. intros [[_ <-] | [_ He]];
        [exact Hm | exact (Hinv1 k e He)].
    + right. eexists. split; [reflexivity | exact Hm].
Qed.

Lemma decision_categories t t' content remote w :
  cache_mapped w ->
  let d := (moderateContent t t' content remote w).1 in
  flaggedCategories d = ["error"]
  \/ forall c, In c (flaggedCategories d) -> In c MODERATION.CATEGORIES.
Proof.
  intros Hinv d. subst d.
  destruct (call_decision_mapped t t' content remote w Hinv)
    as (_ & [-> | (r & -> & Hm)]); [now left | right].
  intros c Hc. apply flagged_among_keys in Hc as (u & Hu & Hc).
  rewrite Forall_forall in Hm. destruct (Hm u) as [Hk _].
  - now apply list_elem_of_In.
  - now rewrite <- Hk.
Qed.

Lemma cache_mapped_empty : cache_mapped EMPTY_WORLD.
Proof. intros k e He. simpl in He. rewrite lookup_empty in He. discriminate. Qed.

(** Starting from a cache that only holds results built by
    [moderateContent] (as the empty cache does), every call and every sweep
    keeps the cache so, and every decision lists either the single category
    "error" or some of the eleven categories, none twice: at most eleven. *)
Theorem decisions_list_known_categories (t t' now : Z) (content : js_text)
    (remote : Outcome) (w : World) :
  cache_mapped w ->
  let call := moderateContent t t' content remote w in
  cache_mapped call.2
  /\ cache_mapped (cleanupModerationCache now w)
  /\ (flaggedCategories call.1 = ["error"]
      \/ forall c, In c (flaggedCategories call.1) ->
                   In c MODERATION.CATEGORIES)
  /\ NoDup (flaggedCategories call.1)
  /\ (length (flaggedCategories call.1) <= 11)%nat.
Proof.
  intros Hinv call.
  pose proof (call_decision_mapped t t' content remote w Hinv) as [Hinv' Hd].
  pose proof (decision_categories t t' content remote w Hinv) as Hc.
  fold call in Hinv', Hd, Hc.
  assert (Hnd : NoDup (flaggedCategories call.1)).
  { destruct Hd as [-> | (r & -> & _)]; [|apply flagged_NoDup].
    apply NoDup_singleton. }
  split; [exact Hinv'|]. split; [|split; [exact Hc|split; [exact Hnd|]]].
  - intros k e He.
    assert (Hsome : moderationCache (cleanupModerationCache now w) !! k = Some e)
      by exact He.
    rewrite sweep_lookup in Hsome.
    destruct (moderationCache w !! k) as [e'|] eqn:E; [|discriminate].
    destruct (expired now e'); [discriminate|]. inversion Hsome; subst.
    exact (Hinv k e E).
  - destruct Hc as [-> | Hc]; [simpl; lia|].
    change 11%nat with (length MODERATION.CATEGORIES).
    apply List.NoDup_incl_length; [apply NoDup_ListNoDup, Hnd | exact Hc].
Qed.

Lemma decisions_list_known_categories_witness :
  let call := moderateContent 10 20 (text_of_string "I hate everyone")
                (Fulfilled partial_response) EMPTY_WORLD in
  cache_mapped call.2 /\ (length (flaggedCategories call.1) <= 11)%nat.
Proof.
  intros call.
  pose proof (decisions_list_known_categories 10 20 30
    (text_of_string "I hate everyone") (Fulfilled partial_response)
    EMPTY_WORLD cache_mapped_empty) as (H1 & _ & _ & _ & H5).
  split; [exact H1 | exact H5].
Defined.

(** The feedback shown for a decision of [moderateContent] is always the
    specified text: the names that [Object.prototype] defines never reach
    the formatter through the pipeline. *)
Theorem pipeline_feedback_is_as_specified (t t' : Z) (content : js_text)
    (remote : Outcome) (w : World) :
  cache_mapped w ->
  let d := (moderateContent t t' content remote w).1 in
  formatModerationFeedback (flaggedCategories d) (isAllowed d)
  = feedback_of (flaggedCategories d) (isAllowed d).
Proof.
  intros Hinv d. apply feedback_outside_prototype. intros c Hc.
  destruct (decision_categories t t' content remote w Hinv) as [E | Hknown].
  - fold d in E. rewrite E in Hc. destruct Hc as [<- | []]. reflexivity.
  - specialize (Hknown c Hc). unfold MODERATION.CATEGORIES in Hknown.
    simpl in Hknown.
    repeat (destruct Hknown as [<- | Hknown]; [reflexivity|]). contradiction.
Qed.

Lemma pipeline_feedback_is_as_specified_witness :
  let d := (moderateContent 10 20 (text_of_string "I hate everyone")
              (Rejected "timeout") EMPTY_WORLD).1 in
  formatModerationFeedback (flaggedCategories d) (isAllowed d)
  = "Content flagged for: error. Please revise your post.".
Proof.
  intros d.
  exact (pipeline_feedback_is_as_specified 10 20
    (text_of_string "I hate everyone") (Rejected "timeout") EMPTY_WORLD
    cache_mapped_empty).
Defined.

(** ** The evaluator on arbitrary responses *)

Lemma max_step_mono (l : list (option float)) (m0 : float) :
  PrimFloat.leb m0 m0 = true ->
  PrimFloat.leb m0 (fold_left max_step l m0) = true.
Proof.
  revert m0. induction l as [|o l IH]; intros m0 Hm0; [exact Hm0|].
  rewrite fold_left_cons. unfold max_step at 2.
  destruct o as [s|]; simpl; [|now apply IH].
  destruct (PrimFloat.ltb m0 s) eqn:Hlt; [|now apply IH].
  apply flt_fle in Hlt. eapply fle_trans; [exact Hlt|].
  apply IH. eapply fle_refl_r, Hlt.
Qed.

Lemma max_step_attained (l : list (option float)) (m0 : float) :
  fold_left max_step l m0 = m0 \/ In (Some (fold_left max_step l m0)) l.
Proof.
  revert m0. induction l as [|o l IH]; intros m0; [now left|].
  rewrite fold_left_cons. unfold max_step at 2 4.
  destruct o as [s|]; simpl.
  - destruct (PrimFloat.ltb m0 s).
    + destruct (IH s) as [-> | H]; right; [now left | now right].
    + destruct (IH m0) as [-> | H]; [now left | right; now right].
  - destruct (IH m0) as [-> | H]; [now left | right; now right].
Qed.

Lemma observed_scores_entry r o :
  In o (observed_scores r) ->
  exists u e, In u (results r) /\ In e (categories u)
              /\ prop_get (category_scores u) e.1 = o.
Proof.
  unfold observed_scores. rewrite in_flat_map.
  intros (u & Hu & Ho). apply in_map_iff in Ho as (e & <- & He). eauto.
Qed.

Lemma confidence_bounds (r : ModerationResult) :
  PrimFloat.leb 0%float (confidenceScore (analyzeModeration r)) = true
  /\ (confidenceScore (analyzeModeration r) = 0%float
      \/ exists u e, In u (results r) /\ In e (categories u)
                     /\ prop_get (category_scores u) e.1
                        = Some (confidenceScore (analyzeModeration r))).
Proof.
  rewrite analyze_confidence. split.
  - now apply max_step_mono.
  - destruct (max_step_attained (observed_scores r) 0%float) as [-> | H];
      [now left | right]. now apply observed_scores_entry.
Qed.

(** Whatever the response holds (scores that are missing, NaN, negative or
    above 1 included), the confidence score is a number at or above 0, and
    it is 0 or a score that some unit carries for one of its categories. *)
Theorem confidence_is_never_negative (r : ModerationResult) :
  let m := confidenceScore (analyzeModeration r) in
  PrimFloat.leb 0%float m = true
  /\ (m = 0%float
      \/ exists u e, In u (results r) /\ In e (categories u)
                     /\ prop_get (category_scores u) e.1 = Some m).
Proof.
  intros m. subst m. apply confidence_bounds.
Qed.

Lemma filter_all_true {A} (l : list A) : List.filter (fun _ => true) l = l.
Proof. induction l as [|x l IH]; simpl; congruence. Qed.

Lemma first_seen_app (l1 l2 : list string) :
  first_seen (l1 ++ l2)
  = first_seen l1
    ++ List.filter (fun y => negb (includes (first_seen l1) y)) (first_seen l2).
Proof.
  assert (H : forall l, fold_left push_unique l [] = first_seen l).
  { intros l. rewrite push_unique_fold. simpl.
    induction (first_seen l) as [|x l' IH]; simpl; congruence. }
  now rewrite <- !H, fold_left_app, push_unique_fold, !H.
Qed.

(** Evaluating more units can only block more: for results that differ only
    in their units, the content is allowed for [rs1 ++ rs2] exactly when it
    is allowed for [rs1] and for [rs2]; the categories flagged for [rs1] come
    first, unchanged, followed by those new in [rs2]; and the confidence
    score does not decrease. *)
Theorem more_units_block_more (i m : string) (rs1 rs2 : list ModerationCategory) :
  let d1 := analyzeModeration {| id := i; model := m; results := rs1 |} in
  let d2 := analyzeModeration {| id := i; model := m; results := rs2 |} in
  let d := analyzeModeration {| id := i; model := m; results := rs1 ++ rs2 |} in
  isAllowed d = isAllowed d1 && isAllowed d2
  /\ flaggedCategories d
     = flaggedCategories d1
       ++ List.filter (fun c => negb (includes (flaggedCategories d1) c))
            (flaggedCategories d2)
  /\ (forall c, In c (flaggedCategories d) <->
                In c (flaggedCategories d1) \/ In c (flaggedCategories d2))
  /\ PrimFloat.leb (confidenceScore d1) (confidenceScore d) = true.
Proof.
  intros d1 d2 d.
  assert (Hfl : flaggedCategories d
     = flaggedCategories d1
       ++ List.filter (fun c => negb (includes (flaggedCategories d1) c))
            (flaggedCategories d2)).
  { unfold d, d1, d2, analyzeModeration. simpl.
    now rewrite !analyze_flagged, flat_map_app, first_seen_app. }
  split; [|split; [exact Hfl|split]].
  - unfold d, d1, d2. rewrite !analyze_isAllowed. cbn [results].
    fold d d1 d2. rewrite Hfl, existsb_app, negb_orb.
    destruct (flaggedCategories d1) as [|c l]; simpl.
    + rewrite filter_all_true.
      destruct (existsb _ rs1), (existsb _ rs2), (loc_flagged _);
        reflexivity.
    + now rewrite !andb_false_r.
  - intros c. rewrite Hfl, in_app_iff, filter_In, negb_true_iff.
    destruct (includes (flaggedCategories d1) c) eqn:Hc.
    + apply includes_In in Hc. intuition congruence.
    + intuition.
  - unfold d, d1. rewrite !analyze_confidence. unfold observed_scores. simpl.
    rewrite flat_map_app, fold_left_app. apply max_step_mono.
    eapply fle_refl_r. apply max_step_mono. reflexivity.
Qed.

Lemma analyze_flagged_violations r :
  well_formed r = true ->
  flaggedCategories (analyzeModeration r) = first_seen (violations r).
Proof.
  intros Hwf. unfold analyzeModeration. simpl.
  now rewrite analyze_flagged, violations_flat_map.
Qed.

(** For a well-formed response the content is allowed exactly when nothing
    at all is raised: no unit is flagged overall, no category flag is set,
    and no score reaches the threshold of its category. *)
Theorem allowed_iff_all_clear (r : ModerationResult) :
  well_formed r = true ->
  isAllowed (analyzeModeration r) = true <->
  forall u, In u (results r) ->
    flagged u = Some false
    /\ forall c, In c MODERATION.CATEGORIES ->
         category_flag u c = false
         /\ forall s, category_score u c = Some s ->
                      PrimFloat.leb (threshold_of c) s = false.
Proof.
  intros Hwf. rewrite analyze_isAllowed, (analyze_flagged_violations r Hwf).
  rewrite andb_true_iff, negb_true_iff. split.
  - intros [Hex Hnil] u Hu.
    assert (Hv : forall c, In c MODERATION.CATEGORIES -> violates u c = false).
    { intros c Hc. destruct (violates u c) eqn:Hv; [|reflexivity].
      assert (Hin : In c (violations r)) by (apply violations_In; eauto).
      apply first_seen_In in Hin.
      destruct (first_seen (violations r)); [contradiction | discriminate]. }
    split.
    + assert (Ht : truthy (flagged u) = false).
      { destruct (truthy (flagged u)) eqn:Ht; [|reflexivity].
        rewrite <- Hex. symmetry. apply existsb_exists. eauto. }
      pose proof (well_formed_In r u Hwf Hu) as Hwu.
      unfold well_formed_unit in Hwu. rewrite !andb_true_iff in Hwu.
      destruct Hwu as [[[Hf _] _] _].
      destruct (flagged u) as [[]|]; [discriminate | reflexivity | discriminate].
    + intros c Hc. specialize (Hv c Hc). unfold violates in Hv.
      apply orb_false_iff in Hv as [Hf Hs]. split; [exact Hf|].
      intros s E. rewrite E in Hs. exact Hs.
  - intros Hall. split.
    + apply not_true_iff_false. intros Hex.
      apply existsb_exists in Hex as (u & Hu & Ht).
      destruct (Hall u Hu) as [E _]. rewrite E in Ht. discriminate.
    + destruct (first_seen (violations r)) as [|c l] eqn:E; [reflexivity|].
      assert (Hin : In c (violations r))
        by (apply first_seen_In; rewrite E; now left).
      apply (violations_In r c Hwf) in Hin as (Hc & u & Hu & Hv).
      destruct (Hall u Hu) as [_ Hcl]. destruct (Hcl c Hc) as [Hf Hs].
      apply violates_spec in Hv as [Hv | (s & Es & Hv)]; [congruence|].
      rewrite (Hs s Es) in Hv. discriminate.
Qed.

Lemma allowed_iff_all_clear_witness :
  let r := result_of [unit_of false [] [("violence", 0.099999%float)]] in
  well_formed r = true /\ isAllowed (analyzeModeration r) = true
  /\ forall u, In u (results r) -> flagged u = Some false.
Proof.
  intros r. split; [reflexivity|]. split; [reflexivity|].
  intros u Hu.
  exact (proj1 (proj1 (allowed_iff_all_clear r eq_refl) eq_refl u Hu)).
Defined.

(** ** [shouldFlagForModeration] against the evaluator *)

Lemma allowed_entries_clear rs u e :
  loc_violation (analyze_loop rs) = false ->
  In u rs -> In e (categories u) ->
  entry_violates (category_scores u) e = false.
Proof.
  unfold analyze_loop. rewrite results_violation. simpl.
  rewrite orb_false_iff, negb_false_iff, forallb_forall.
  intros [_ H] Hu He. specialize (H u Hu). unfold unit_violations in H.
  destruct (entry_violates (category_scores u) e) eqn:Hv; [|reflexivity].
  assert (Hin : In e (List.filter (entry_violates (category_scores u))
                        (categories u))) by (apply filter_In; auto).
  destruct (List.filter _ (categories u)); [contradiction | discriminate].
Qed.

Lemma below_threshold_below_limits c s :
  PrimFloat.leb s s = true ->
  PrimFloat.leb (threshold_of c) s = false ->
  PrimFloat.leb s 1%float = true
  /\ PrimFloat.leb Validations.MODERATION_CONFIDENCE_THRESHOLD s = false.
Proof.
  intros Hs Hlt.
  assert (Hthr : PrimFloat.leb (threshold_of c) (threshold_of c) = true
                 /\ PrimFloat.leb (threshold_of c) 1%float = true
                 /\ PrimFloat.leb (threshold_of c)
                      Validations.MODERATION_CONFIDENCE_THRESHOLD = true).
  { unfold threshold_of.
    destruct (includes MODERATION.HIGH_SENSITIVITY_CATEGORIES c);
      repeat split. }
  destruct Hthr as (Hrefl & Hone & Hlim).
  assert (Hle : PrimFloat.leb s (threshold_of c) = true).
  { apply fle_total; [exact Hrefl | exact Hs|].
    destruct (PrimFloat.ltb (threshold_of c) s) eqn:E; [|reflexivity].
    apply flt_fle in E. congruence. }
  split; [exact (fle_trans _ _ _ Hle Hone)|].
  destruct (PrimFloat.leb Validations.MODERATION_CONFIDENCE_THRESHOLD s) eqn:E;
    [|reflexivity].
  rewrite (fle_trans _ _ _ Hlim E) in Hlt. discriminate.
Qed.

(** On the decisions of the evaluator, [shouldFlagForModeration] says
    exactly "not allowed": an allowed decision always passes the schema and
    has a confidence score below 0.1, whatever the response was; and the
    conservative decision of a failed classification is flagged. *)
Theorem should_flag_agrees_with_decision (r : ModerationResult) :
  Validations.shouldFlagForModeration (analyzeModeration r)
  = negb (isAllowed (analyzeModeration r))
  /\ Validations.shouldFlagForModeration ERROR_DECISION = true.
Proof.
  split; [|reflexivity].
  unfold Validations.shouldFlagForModeration, Validations.safeParse_response.
  destruct (isAllowed (analyzeModeration r)) eqn:Ha.
  - destruct (confidence_bounds r) as [H0 Hatt].
    assert (Hlim : PrimFloat.leb (confidenceScore (analyzeModeration r)) 1%float
                   = true
                   /\ PrimFloat.leb Validations.MODERATION_CONFIDENCE_THRESHOLD
                        (confidenceScore (analyzeModeration r)) = false).
    { destruct Hatt as [-> | (u & e & Hu & He & Hs)]; [split; reflexivity|].
      unfold analyzeModeration in Ha. simpl in Ha.
      apply negb_true_iff in Ha.
      pose proof (allowed_entries_clear _ u e Ha Hu He) as Hc.
      unfold entry_violates in Hc. apply orb_false_iff in Hc as [_ Hc].
      rewrite Hs in Hc. simpl in Hc.
      apply (below_threshold_below_limits e.1); [|exact Hc].
      eapply fle_refl_r, H0. }
    destruct Hlim as [H1 Hlim]. rewrite H0, H1. cbn [andb].
    now rewrite Ha, Hlim.
  - destruct (_ && _); [now rewrite Ha | reflexivity].
Qed.

(** ** The cache key, in closed form *)

Lemma to_int32_mul_add k a b :
  to_int32 (k * to_int32 a + b) = to_int32 (k * a + b).
Proof.
  unfold to_int32. f_equal.
  replace (k * ((a + 2 ^ 31) mod 2 ^ 32 - 2 ^ 31) + b + 2 ^ 31)
    with (k * ((a + 2 ^ 31) mod 2 ^ 32) + (b + 2 ^ 31 - k * 2 ^ 31)) by ring.
  rewrite <- Zplus_mod_idemp_l, Zmult_mod_idemp_r, Zplus_mod_idemp_l.
  f_equal. ring.
Qed.

Lemma hash_fold_poly l :
  forall h, fold_left hash_step l (to_int32 h)
            = to_int32 (fold_left (fun h c => 31 * h + Z.of_N c) l h).
Proof.
  induction l as [|c l IH]; intros h; [reflexivity|].
  rewrite !fold_left_cons, <- IH. f_equal.
  rewrite hash_step_31 by apply to_int32_range. apply to_int32_mul_add.
Qed.

Lemma string_app_cons x (a b : string) : String x a +:+ b = String x (a +:+ b).
Proof. reflexivity. Qed.

Lemma string_app_assoc (a b c : string) : (a +:+ b) +:+ c = a +:+ (b +:+ c).
Proof.
  induction a as [|x a IH]; [reflexivity|].
  rewrite !string_app_cons. now rewrite IH.
Qed.

Lemma digits36_acc fuel :
  forall n acc, digits36 fuel n acc = digits36 fuel n "" +:+ acc.
Proof.
  induction fuel as [|f IH]; intros n acc; simpl; [reflexivity|].
  destruct (n <? 36); [reflexivity|].
  rewrite (IH _ (String _ acc)), (IH _ (String _ "")), string_app_assoc.
  reflexivity.
Qed.

Lemma value36_app s1 s2 :
  forall v, value36 (s1 +:+ s2) v = value36 s2 (value36 s1 v).
Proof.
  induction s1 as [|c s1 IH]; intros v; [reflexivity|].
  rewrite string_app_cons. simpl. apply IH.
Qed.

Lemma digit_value_digit36 d : 0 <= d < 36 -> digit_value (digit36 d) = d.
Proof.
  intros Hd. rewrite <- (Z2Nat.id d) at 2 by lia.
  assert (Hn : (Z.to_nat d < 36)%nat) by lia.
  unfold digit36. generalize dependent (Z.to_nat d). intros n Hn.
  do 36 (destruct n as [|n]; [reflexivity|]). lia.
Qed.

Lemma digit36_not_minus d : digit36 d <> "-"%char.
Proof.
  unfold digit36. generalize (Z.to_nat d). intros n.
  do 36 (destruct n as [|n]; [discriminate|]). destruct n; discriminate.
Qed.

Lemma value36_digits36 fuel :
  forall n, 0 <= n < 36 ^ Z.of_nat fuel -> value36 (digits36 fuel n "") 0 = n.
Proof.
  induction fuel as [|f IH]; intros n Hn.
  - simpl in *. lia.
  - simpl digits36. destruct (Z.ltb_spec n 36) as [Hlt | Hge].
    + simpl. rewrite digit_value_digit36 by lia. lia.
    + rewrite digits36_acc, value36_app, IH.
      * simpl. rewrite digit_value_digit36
          by (apply Z.mod_pos_bound; lia).
        pose proof (Z.div_mod n 36 ltac:(lia)). lia.
      * rewrite Nat2Z.inj_succ, Z.pow_succ_r in Hn by lia.
        split; [apply Z.div_pos; lia|].
        apply Z.div_lt_upper_bound; lia.
Qed.

Lemma digits36_head f n acc :
  exists k rest, digits36 (S f) n acc = String (digit36 k) rest.
Proof.
  revert n acc. induction f as [|f IH]; intros n acc.
  - simpl. destruct (n <? 36); eauto.
  - change (digits36 (S (S f)) n acc)
      with (if n <? 36 then String (digit36 n) acc
            else digits36 (S f) (n / 36) (String (digit36 (n mod 36)) acc)).
    destruct (n <? 36); [eauto | apply IH].
Qed.

Lemma fuel_suffices n : 0 <= n -> n < 36 ^ Z.of_nat (S (Z.to_nat (Z.log2 n))).
Proof.
  intros Hn. rewrite Nat2Z.inj_succ, Z2Nat.id by apply Z.log2_nonneg.
  destruct (Z.eq_dec n 0) as [-> | Hne]; [reflexivity|].
  apply Z.lt_le_trans with (2 ^ Z.succ (Z.log2 n)).
  - apply Z.log2_spec. lia.
  - apply Z.pow_le_mono_l. pose proof (Z.log2_nonneg n). lia.
Qed.

Lemma parse36_toString36 n : parse36 (toString36 n) = n.
Proof.
  unfold toString36. destruct (Z.ltb_spec n 0) as [Hneg | Hpos].
  - change (parse36 ("-" +:+ ?s)) with (- value36 s 0).
    rewrite value36_digits36 by (split; [lia | apply fuel_suffices; lia]). lia.
  - destruct (digits36_head (Z.to_nat (Z.log2 n)) n "") as (k & rest & E).
    pose proof (value36_digits36 _ n (conj Hpos (fuel_suffices n Hpos))) as V.
    rewrite E in *. unfold parse36.
    destruct (Ascii.eqb_spec (digit36 k) "-"%char) as [Hm | Hm].
    + now apply digit36_not_minus in Hm.
    + destruct (digit36 k) as [[] [] [] [] [] [] [] []]; try exact V.
      now contradiction Hm.
Qed.

Lemma key_determines_hash a b :
  getModerationCacheKey a = getModerationCacheKey b ->
  content_hash a = content_hash b.
Proof.
  unfold getModerationCacheKey. intros E.
  apply (inj (String.append "moderation_")) in E.
  rewrite <- (parse36_toString36 (content_hash a)), E.
  apply parse36_toString36.
Qed.

(** The key of a text is the 31-multiplier polynomial hash of its code
    units, reduced to the signed 32-bit range; and the base-36 rendering
    loses nothing, so two texts share a key exactly when these hashes are
    congruent modulo 2^32. *)
Theorem key_is_polynomial_hash (a b : js_text) :
  content_hash a = to_int32 (poly31 a)
  /\ (getModerationCacheKey a = getModerationCacheKey b <->
      content_hash a = content_hash b)
  /\ (getModerationCacheKey a = getModerationCacheKey b <->
      (poly31 a - poly31 b) mod 2 ^ 32 = 0).
Proof.
  assert (Hpoly : forall c, content_hash c = to_int32 (poly31 c)).
  { intros c. unfold content_hash, poly31.
    rewrite <- hash_fold_poly. reflexivity. }
  assert (Hkey : getModerationCacheKey a = getModerationCacheKey b <->
                 content_hash a = content_hash b).
  { split; [apply key_determines_hash|].
    unfold getModerationCacheKey. now intros ->. }
  split; [apply Hpoly|]. split; [exact Hkey|].
  rewrite Hkey, !Hpoly. unfold to_int32.
  assert (HM : 0 < 2 ^ 32) by reflexivity.
  generalize dependent (2 ^ 32). intros M HM.
  generalize (2 ^ 31). intros H. split.
  - intros E.
    assert (E' : (poly31 a + H) mod M = (poly31 b + H) mod M) by lia.
    replace (poly31 a - poly31 b) with ((poly31 a + H) - (poly31 b + H)) by ring.
    rewrite Zminus_mod, E', Z.sub_diag. apply Z.mod_0_l. lia.
  - intros E. f_equal.
    replace (poly31 a + H) with ((poly31 a - poly31 b) + (poly31 b + H)) by ring.
    rewrite <- Zplus_mod_idemp_l, E. reflexivity.
Qed.

(** A collision survives any common continuation: two texts with the same
    key still have the same key after the same text is appended to both. *)
Theorem collision_extends (a b s : js_text) :
  getModerationCacheKey a = getModerationCacheKey b ->
  getModerationCacheKey (a ++ s) = getModerationCacheKey (b ++ s).
Proof.
  intros E. apply key_determines_hash in E.
  unfold getModerationCacheKey, content_hash in *.
  now rewrite !fold_left_app, E.
Qed.

Lemma collision_extends_witness :
  text_of_string "Aa, hello" <> text_of_string "BB, hello"
  /\ getModerationCacheKey (text_of_string "Aa, hello")
     = getModerationCacheKey (text_of_string "BB, hello").
Proof.
  split; [discriminate|].
  exact (collision_extends (text_of_string "Aa") (text_of_string "BB")
           (text_of_string ", hello") eq_refl).
Defined.

(** ** The character counter *)

Lemma same_status_eq a b : same_status a b = true -> a = b.
Proof. destruct a, b; simpl; congruence. Qed.

Lemma status_depends_on_length content :
  Validations.status (Validations.getCharacterCount content)
  = status_at (Z.of_nat (length content)).
Proof.
  reflexivity.
Qed.

Lemma all_from_spec check count :
  forall start, all_from check start count = true ->
  forall z, start <= z < start + Z.of_nat count -> check z = true.
Proof.
  induction count as [|count IH]; intros start H z Hz; [lia|].
  simpl in H. apply andb_true_iff in H as [H0 H].
  destruct (Z.eq_dec z start) as [-> | Hne]; [exact H0|].
  apply (IH (start + 1) H). lia.
Qed.

Lemma status_checked_up_to_a_million :
  all_from (fun n => same_status (status_at n) (status_by_length n))
           0 (Z.to_nat 1000001) = true.
Proof. vm_compute. reflexivity. Qed.

(** For a text of at most 1000000 code units the counter reports the length,
    the room left out of 280 (negative past the limit), and a status that
    turns to warning at 196 code units and to danger at 252: the floating
    point percentage crosses 70 and 90 exactly there. The length is valid
    exactly when it is at least 1 and no room is overdrawn. *)
Theorem character_count_thresholds (content : js_text) :
  Z.of_nat (length content) <= 1000000 ->
  let c := Validations.getCharacterCount content in
  Validations.current c = Z.of_nat (length content)
  /\ Validations.max c = 280
  /\ Validations.remaining c = 280 - Validations.current c
  /\ (Validations.status c = Validations.danger <-> 252 <= Validations.current c)
  /\ (Validations.status c = Validations.warning <->
      196 <= Validations.current c < 252)
  /\ (Validations.status c = Validations.safe <-> Validations.current c < 196)
  /\ (Validations.isValidPostLength content = true <->
      1 <= Validations.current c /\ 0 <= Validations.remaining c).
Proof.
  intros Hlen c.
  assert (Hst : Validations.status c
                = status_by_length (Z.of_nat (length content))).
  { unfold c. rewrite status_depends_on_length. apply same_status_eq.
    apply (all_from_spec _ _ 0 status_checked_up_to_a_million). lia. }
  split; [reflexivity|]. split; [reflexivity|]. split; [reflexivity|].
  change (Validations.current c) with (Z.of_nat (length content)).
  change (Validations.remaining c) with (280 - Z.of_nat (length content)).
  rewrite Hst. unfold status_by_length, Validations.isValidPostLength,
    Validations.js_length, Validations.MIN_POST_LENGTH,
    Validations.MAX_POST_LENGTH.
  rewrite andb_true_iff, !Z.leb_le.
  destruct (Z.leb_spec 252 (Z.of_nat (length content)));
    [|destruct (Z.leb_spec 196 (Z.of_nat (length content)))];
    repeat split; intros; try discriminate; try lia.
Qed.

Lemma character_count_thresholds_witness :
  Validations.status
    (Validations.getCharacterCount (repeat 65%N 252)) = Validations.danger
  /\ Validations.status
       (Validations.getCharacterCount (repeat 65%N 251)) = Validations.warning.
Proof.
  assert (H252 : Z.of_nat (length (repeat 65%N 252)) <= 1000000)
    by (vm_compute; discriminate).
  assert (H251 : Z.of_nat (length (repeat 65%N 251)) <= 1000000)
    by (vm_compute; discriminate).
  destruct (character_count_thresholds _ H252) as (_ & _ & _ & Hd & _).
  destruct (character_count_thresholds _ H251) as (_ & _ & _ & _ & Hw & _).
  split.
  - apply Hd. vm_compute. discriminate.
  - apply Hw. vm_compute. split; [discriminate | reflexivity].
Defined.

(** ** The client-side calls *)

Lemma or_else_nonempty s fallback : fallback <> "" -> Client.or_else s fallback <> "".
Proof.
  intros Hf. unfold Client.or_else. destruct s as [x|]; [|exact Hf].
  destruct (String.eqb_spec x ""); assumption.
Qed.

(** [moderateContentAPI] hands back the data of a reply only when the reply
    is ok, says success and carries data that is truthy, and then that very
    data: never [undefined], [null], [false], [0], NaN or the empty string,
    for which it throws. [createPostAPI] and [publishToTwitterAPI] do not
    look at the data and hand it back as it is, [undefined] included, from
    every ok, successful reply. An [Error] built by any of the three never
    has an empty message: an absent or empty server message is replaced by
    the fallback. *)
Theorem client_calls_results (A : Type) (reply : Client.Reply A) :
  (forall v, Client.moderateContentAPI reply = inr v <->
     exists body,
       reply = Client.Answered true (Some body)
       /\ Client.success body = Some true
       /\ Client.truthy_data (Client.data body) = true
       /\ v = Client.data body)
  /\ (forall v, Client.moderateContentAPI reply = inr v ->
        v <> Client.Undefined /\ v <> Client.Null
        /\ v <> Client.Bool false /\ v <> Client.Str ""
        /\ v <> Client.Number 0%float)
  /\ (forall v, Client.createPostAPI reply = inr v <->
        exists body,
          reply = Client.Answered true (Some body)
          /\ Client.success body = Some true /\ v = Client.data body)
  /\ (forall v, Client.publishToTwitterAPI reply = inr v <->
        Client.createPostAPI reply = inr v)
  /\ (forall message,
        Client.moderateContentAPI reply = inl (Client.ThrownError message)
        \/ Client.createPostAPI reply = inl (Client.ThrownError message)
        \/ Client.publishToTwitterAPI reply = inl (Client.ThrownError message) ->
        message <> "").
Proof.
  assert (H1 : forall v, Client.moderateContentAPI reply = inr v <->
     exists body,
       reply = Client.Answered true (Some body)
       /\ Client.success body = Some true
       /\ Client.truthy_data (Client.data body) = true
       /\ v = Client.data body).
  { intros v. split.
    - intros H.
      destruct reply as [reason | [] [[[[]|] dat err]|]];
        simpl in H; try discriminate H.
      destruct (Client.truthy_data dat) eqn:Ht; simpl in H; [|discriminate H].
      inversion H; subst. eauto 10.
    - intros (body & -> & Hs & Hd & ->). simpl. now rewrite Hs, Hd. }
  split; [exact H1|]. split; [|split; [|split]].
  - intros v Hv. apply H1 in Hv as (body & _ & _ & Ht & ->).
    repeat split; intros E; rewrite E in Ht; discriminate Ht.
  - intros v. split.
    + intros H.
      destruct reply as [reason | [] [[[[]|] dat err]|]];
        simpl in H; try discriminate H.
      inversion H; subst. eauto 10.
    + intros (body & -> & Hs & ->). simpl. now rewrite Hs.
  - intros v.
    destruct reply as [reason | [] [[[[]|] dat err]|]]; simpl;
      split; intros H; try discriminate H; exact H.
  - intros message H.
    assert (Hm : forall fallback s,
              fallback <> "" ->
              @inl Client.Thrown (Client.Data A)
                (Client.ThrownError (Client.or_else s fallback))
              = inl (Client.ThrownError message) ->
              message <> "").
    { intros fallback s Hf E. inversion E; subst. now apply or_else_nonempty. }
    destruct reply as [reason | [] [[[[]|] dat err]|]]; simpl in H;
      try destruct (Client.truthy_data dat); simpl in H;
      destruct H as [H | [H | H]]; try discriminate H;
      (eapply Hm; [|exact H]; discriminate).
Qed.
